(** * SoleStride backend: order placement and stock adjustment

    A shallow embedding of the order-placement handler of
    [src/routes/user.js] (POST /orders), of the product handlers of
    [src/routes/admin.js] and of the PL/pgSQL functions [decrement_stock]
    and [restore_stock] of migration 006, together with the properties the
    specification states about them.

    The handler is a tree of awaited calls ([prog]), written with the
    [try]/[catch]/[finally], [for ... of] and early [return] of the source.
    It is run in two ways: on its own, against a schedule of faults ([run]),
    and two at a time, interleaved call by call under row locks ([step]).

    Conventions.
    - UUIDs are opaque identifiers, modelled as [N].
    - [INTEGER] columns and parameters are 32-bit: a value is a [Z], and an
      expression whose value leaves the 32-bit range raises
      [numeric_value_out_of_range], as PostgreSQL does (it never wraps).
    - [DECIMAL(10,2)] columns are counted in hundredths, as a [Z]. The
      amounts of a request body are JSON numbers with any number of
      decimals ([Number.t]); the column rounds what it is given to two
      decimals, ties away from zero, and raises
      [numeric_value_out_of_range] past ten digits.
    - Timestamp columns and the catalogue columns no handler below reads
      (description, category, images, sizes, colours, featured) are left out
      of the rows, and so are the tables the order flow does not touch. *)

From stdpp Require Import gmap list strings.
From Stdlib Require Import ZArith Lia.

Local Open Scope Z_scope.

Abbreviation uuid := N.

(** ** Values and errors *)

Definition int4_min : Z := -2147483648.
Definition int4_max : Z := 2147483647.

(** The range of PostgreSQL's [INTEGER]. *)
Definition int4 (z : Z) : bool := (int4_min <=? z) && (z <=? int4_max).

(** What an awaited call can throw: PostgreSQL errors by SQLSTATE class, and
    the [TypeError] of JavaScript. *)
Inductive error : Type :=
| unique_violation              (* 23505 *)
| foreign_key_violation         (* 23503 *)
| numeric_value_out_of_range    (* 22003 *)
| in_failed_sql_transaction     (* 25P02 *)
| connection_failure            (* 08006 and any other fault *)
| TypeError.

#[global] Instance error_eq_dec : EqDecision error.
Proof. solve_decision. Defined.

(** The completion of a statement or of a PL/pgSQL function. *)
Inductive outcome (A : Type) : Type :=
| Ok (a : A)
| Raise (e : error).
Arguments Ok {A} a.
Arguments Raise {A} e.

(** ** Rows and tables (migration 006) *)

Module Product.
Record t : Type := mk {
  name : string;
  price : Z;
  in_stock : bool;
  stock_quantity : Z
}.
End Product.

Inductive order_status : Type :=
| pending | processing | shipped | completed | cancelled.

Module Order.
Record t : Type := mk {
  id : uuid;
  user_id : uuid;
  status : order_status;
  total : Z;
  shipping_address : string
}.
End Order.

Module OrderItem.
Record t : Type := mk {
  id : uuid;
  order_id : uuid;
  product_id : option uuid;
  product_name : string;
  quantity : Z;
  size : option string;
  price : Z
}.
End OrderItem.

#[global] Instance product_eq_dec : EqDecision Product.t.
Proof. solve_decision. Defined.
#[global] Instance order_status_eq_dec : EqDecision order_status.
Proof. solve_decision. Defined.
#[global] Instance order_eq_dec : EqDecision Order.t.
Proof. solve_decision. Defined.
#[global] Instance order_item_eq_dec : EqDecision OrderItem.t.
Proof. solve_decision. Defined.

(** The three tables the order flow touches. [products] is keyed by its
    primary key; [orders] and [order_items] keep insertion order. *)
Record db : Type := mk_db {
  products : gmap uuid Product.t;
  orders : list Order.t;
  order_items : list OrderItem.t
}.

(** The invariant of the specification on one product row. *)
Definition in_stock_consistent (p : Product.t) : Prop :=
  Product.in_stock p = (Product.stock_quantity p >? 0).

(** ** The stock statements

    [SET stock_quantity = stock_quantity - q, in_stock = (stock_quantity - q) > 0]
    on one row; both right-hand sides read the old row. *)
Definition set_stock_minus (q : Z) (p : Product.t) : outcome Product.t :=
  if int4 (Product.stock_quantity p - q)
  then Ok (Product.mk (Product.name p) (Product.price p)
             (Product.stock_quantity p - q >? 0)
             (Product.stock_quantity p - q))
  else Raise numeric_value_out_of_range.

(** [SET stock_quantity = stock_quantity + q, in_stock = true] on one row. *)
Definition set_stock_plus (q : Z) (p : Product.t) : outcome Product.t :=
  if int4 (Product.stock_quantity p + q)
  then Ok (Product.mk (Product.name p) (Product.price p)
             true
             (Product.stock_quantity p + q))
  else Raise numeric_value_out_of_range.

(** [UPDATE products SET ... WHERE id = pid] with a row-wise [SET]: no row
    matches an absent id, and a raising row expression aborts the statement
    with the table as it was. *)
Definition update_product (f : Product.t -> outcome Product.t) (pid : uuid)
    (d : db) : outcome unit * db :=
  match products d !! pid with
  | None => (Ok tt, d)
  | Some p =>
      match f p with
      | Ok p' => (Ok tt, mk_db (<[pid := p']> (products d)) (orders d) (order_items d))
      | Raise e => (Raise e, d)
      end
  end.

(** ** PL/pgSQL: [decrement_stock] and [restore_stock] *)

Definition decrement_stock (p_product_id : uuid) (p_quantity : Z) (d : db)
    : outcome bool * db :=
  let v_current_stock := Product.stock_quantity <$> products d !! p_product_id in
  match v_current_stock with
  | None => (Ok false, d)
  | Some s =>
      if s <? p_quantity then (Ok false, d)
      else
        match update_product (set_stock_minus p_quantity) p_product_id d with
        | (Ok _, d') => (Ok true, d')
        | (Raise e, d') => (Raise e, d')
        end
  end.

Definition restore_stock (p_product_id : uuid) (p_quantity : Z) (d : db)
    : outcome unit * db :=
  update_product (set_stock_plus p_quantity) p_product_id d.

(** ** The admin product handlers ([src/routes/admin.js])

    They run single statements through the pool, outside any transaction. *)

Inductive json : Type :=
| json_error (error : string)
| json_server_error (err : error)
| json_message (message : string)
| json_product (message : string) (product : Product.t)
| json_order (message : string) (order : Order.t).

Record response : Type := mk_response {
  status : Z;
  body : json
}.

(** The global error middleware ([errorHandler]), on the errors of [error]:
    none of them carries one of the names or a [status] it looks at. The
    default body shows [err.message] or a fixed text, by [NODE_ENV]. *)
Definition errorHandler (err : error) : response :=
  match err with
  | unique_violation =>
      mk_response 409 (json_error "A record with this information already exists")
  | foreign_key_violation =>
      mk_response 400 (json_error "Invalid reference to related record")
  | _ => mk_response 500 (json_server_error err)
  end.

(** [DECIMAL(10,2)], in hundredths. *)
Definition decimal_10_2 (z : Z) : bool := (-10000000000 <? z) && (z <? 10000000000).

Module Number.
(** A number of a request body that [isFloat] lets through, as the decimal
    text the driver sends for it: [unscaled] times ten to the minus [scale],
    so that 19.99 is [mk 1999 2] and 0.005 is [mk 5 3]. *)
Record t : Type := mk {
  unscaled : Z;
  scale : nat
}.

(** The two texts stand for the same number. *)
Definition eqv (a b : t) : Prop :=
  unscaled a * 10 ^ Z.of_nat (scale b) = unscaled b * 10 ^ Z.of_nat (scale a).

Definition add (a b : t) : t :=
  mk (unscaled a * 10 ^ Z.of_nat (scale b) + unscaled b * 10 ^ Z.of_nat (scale a))
     (scale a + scale b).

Definition times (a : t) (z : Z) : t := mk (unscaled a * z) (scale a).
End Number.

#[global] Instance number_eq_dec : EqDecision Number.t.
Proof. solve_decision. Defined.

#[global] Instance number_eqv_dec (a b : Number.t) : Decision (Number.eqv a b).
Proof. unfold Number.eqv. apply _. Defined.

(** An amount of so many hundredths. *)
Definition hundredths (z : Z) : Number.t := Number.mk z 2.

(** What a [DECIMAL(10,2)] column keeps of a number, in hundredths:
    PostgreSQL rounds a [numeric] to the scale of its column, to the nearest
    hundredth and away from zero at a tie, so that 0.005 is kept as 0.01. *)
Definition round_2 (n : Number.t) : Z :=
  let num := 100 * Number.unscaled n in
  let den := 10 ^ Z.of_nat (Number.scale n) in
  Z.sgn num * ((2 * Z.abs num + den) / (2 * den)).

Module ProductBody.
Record t : Type := mk {
  name : option string;
  category : option string;
  price : option Number.t;
  stock_quantity : option Z
}.
End ProductBody.

(** The validation chain of POST /products, first message first; a message
    set by [withMessage] belongs to the validator just before it. *)
Definition create_product_errors (b : ProductBody.t) : list string :=
  (match ProductBody.name b with
   | Some n => if decide (n = "") then ["Name is required"] else []
   | None => ["Invalid value"; "Name is required"]
   end) ++
  (match ProductBody.category b with
   | Some c => if decide (c = "") then ["Category is required"] else []
   | None => ["Invalid value"; "Category is required"]
   end) ++
  (match ProductBody.price b with
   | Some p => if Number.unscaled p <? 0 then ["Price must be a valid number"] else []
   | None => ["Price must be a valid number"]
   end) ++
  (match ProductBody.stock_quantity b with
   | Some q => if q <? 0 then ["Invalid value"] else []
   | None => []
   end).

(** POST /products. [new_id] is the [gen_random_uuid()] of the insert. *)
Definition create_product (new_id : uuid) (b : ProductBody.t) (d : db)
    : response * db :=
  match create_product_errors b with
  | msg :: _ => (mk_response 400 (json_error msg), d)
  | [] =>
      let stockQuantity := default 0 (ProductBody.stock_quantity b) in
      let row := Product.mk (default "" (ProductBody.name b))
                   (from_option round_2 0 (ProductBody.price b))
                   (stockQuantity >? 0) stockQuantity in
      if negb (int4 stockQuantity) || negb (decimal_10_2 (Product.price row))
      then (errorHandler numeric_value_out_of_range, d)
      else
        match products d !! new_id with
        | Some _ => (errorHandler unique_violation, d)
        | None =>
            (mk_response 201 (json_product "Product created" row),
             mk_db (<[new_id := row]> (products d)) (orders d) (order_items d))
        end
  end.

(** The validation chain of PATCH /products/:productId. *)
Definition update_product_errors (b : ProductBody.t) : list string :=
  (match ProductBody.name b with
   | Some n => if decide (n = "") then ["Invalid value"] else []
   | None => []
   end) ++
  (match ProductBody.category b with
   | Some c => if decide (c = "") then ["Invalid value"] else []
   | None => []
   end) ++
  (match ProductBody.price b with
   | Some p => if Number.unscaled p <? 0 then ["Invalid value"] else []
   | None => []
   end) ++
  (match ProductBody.stock_quantity b with
   | Some q => if q <? 0 then ["Invalid value"] else []
   | None => []
   end).

(** PATCH /products/:productId: read the row, then write every column from
    the body, or from the row read where the body has none ([??]). *)
Definition patch_product (productId : uuid) (b : ProductBody.t) (d : db)
    : response * db :=
  match update_product_errors b with
  | msg :: _ => (mk_response 400 (json_error msg), d)
  | [] =>
      match products d !! productId with
      | None => (mk_response 404 (json_error "Product not found"), d)
      | Some current =>
          let stockQuantity :=
            default (Product.stock_quantity current) (ProductBody.stock_quantity b) in
          let inStock := stockQuantity >? 0 in
          let row := Product.mk
                       (default (Product.name current) (ProductBody.name b))
                       (from_option round_2 (Product.price current)
                          (ProductBody.price b))
                       inStock stockQuantity in
          if negb (int4 stockQuantity) || negb (decimal_10_2 (Product.price row))
          then (errorHandler numeric_value_out_of_range, d)
          else
            (mk_response 200 (json_product "Product updated" row),
             mk_db (<[productId := row]> (products d)) (orders d) (order_items d))
      end
  end.

(** [order_items.product_id ... ON DELETE SET NULL]. *)
Definition on_delete_set_null (pid : uuid) (i : OrderItem.t) : OrderItem.t :=
  if decide (OrderItem.product_id i = Some pid)
  then OrderItem.mk (OrderItem.id i) (OrderItem.order_id i) None
         (OrderItem.product_name i) (OrderItem.quantity i) (OrderItem.size i)
         (OrderItem.price i)
  else i.

(** DELETE /products/:productId, with the referential action on
    [order_items]. *)
Definition delete_product (productId : uuid) (d : db) : response * db :=
  match products d !! productId with
  | None => (mk_response 404 (json_error "Product not found"), d)
  | Some _ =>
      (mk_response 200 (json_message "Product deleted"),
       mk_db (delete productId (products d)) (orders d)
         (on_delete_set_null productId <$> order_items d))
  end.

(** ** The handler monad

    An [async] handler is a tree of awaited calls: each call either yields a
    value or throws, and the handler may leave early with [return]. *)

Module StockRow.
(** A row of [SELECT id, name, stock_quantity FROM products]. *)
Record t : Type := mk {
  id : uuid;
  name : string;
  stock_quantity : Z
}.
End StockRow.

(** The statements the order handler sends on its client. *)
Inductive dml : Type -> Type :=
| select_product_for_update (id : uuid) : dml (list StockRow.t)
| update_product_stock (quantity : Z) (id : uuid) : dml unit
| insert_order (user_id : uuid) (total : Number.t) (shipping_address : string)
    : dml Order.t
| insert_order_item (order_id product_id : uuid) (product_name : string)
    (quantity : Z) (size : option string) (price : Number.t) : dml unit.

Inductive sql : Type -> Type :=
| BEGIN : sql unit
| ROLLBACK : sql unit
| COMMIT : sql unit
| statement {R : Type} (q : dml R) : sql R.

(** The calls of the handler: on the pool, on its client, on [res] and
    [next], and the test [if (client)] of its local variable. *)
Inductive eff : Type -> Type :=
| getClient : eff unit
| client_query {R : Type} (q : sql R) : eff R
| client_release : eff unit
| client_defined : eff bool
| res_json (status : Z) (body : json) : eff unit
| next (err : error) : eff unit.

Inductive prog (A : Type) : Type :=
| Pure (a : A)
| Throw (e : error)
| Return
| Call {R : Type} (c : eff R) (k : outcome R -> prog A).
Arguments Pure {A} a.
Arguments Throw {A} e.
Arguments Return {A}.
Arguments Call {A R} c k.

(** [await c]: the value of the call, or its exception thrown. *)
Definition await {R : Type} (c : eff R) : prog R :=
  Call c (fun r => match r with Ok v => Pure v | Raise e => Throw e end).

Fixpoint prog_bind {A B : Type} (f : A -> prog B) (p : prog A) : prog B :=
  match p with
  | Pure a => f a
  | Throw e => Throw e
  | Return => Return
  | Call c k => Call c (fun r => prog_bind f (k r))
  end.

#[global] Instance prog_mret : MRet prog := @Pure.
#[global] Instance prog_mbind : MBind prog := @prog_bind.

(** [try { p } catch (error) { h error }] *)
Fixpoint catch {A : Type} (p : prog A) (h : error -> prog A) : prog A :=
  match p with
  | Pure a => Pure a
  | Throw e => h e
  | Return => Return
  | Call c k => Call c (fun r => catch (k r) h)
  end.

(** [try { p } finally { fin }]: [fin] runs on every completion of [p], and
    the completion of [p] stands unless [fin] itself throws or returns. *)
Fixpoint finally {A : Type} (p : prog A) (fin : prog unit) : prog A :=
  match p with
  | Pure a => fin ≫= (λ _, Pure a)
  | Throw e => fin ≫= (λ _, Throw e)
  | Return => fin ≫= (λ _, Return)
  | Call c k => Call c (fun r => finally (k r) fin)
  end.

Definition try_catch_finally {A : Type} (p : prog A) (h : error -> prog A)
    (fin : prog unit) : prog A :=
  finally (catch p h) fin.

(** [for (const x of l) { body x }] *)
Fixpoint for_of {A : Type} (l : list A) (body : A -> prog unit) : prog unit :=
  match l with
  | [] => Pure tt
  | x :: l' => body x ≫= (λ _, for_of l' body)
  end.

(** ** POST /orders ([src/routes/user.js]) *)

Module Item.
Record t : Type := mk {
  productId : uuid;
  quantity : Z;
  price : Number.t;
  size : option string;
  product_name : option string
}.
End Item.

Module Request.
(** [req.userId] and [req.body]; [shippingAddress] is the JSON text of the
    object, [None] when the field is not an object. *)
Record t : Type := mk {
  userId : uuid;
  items : list Item.t;
  total : Number.t;
  shippingAddress : option string
}.
End Request.

(** The messages of the validation chain, in the order of the chain. The
    fields are typed, so that only the range checks can fail. *)
Definition validation_errors (req : Request.t) : list string :=
  (match Request.items req with
   | [] => ["At least one order item is required"]
   | _ => []
   end) ++
  flat_map (λ i, if Item.quantity i <? 1 then ["Quantity must be at least 1"] else [])
    (Request.items req) ++
  flat_map (λ i, if Number.unscaled (Item.price i) <? 0
                 then ["Price must be a valid number"] else [])
    (Request.items req) ++
  (if Number.unscaled (Request.total req) <? 0
   then ["Total must be a valid number"] else []) ++
  (match Request.shippingAddress req with
   | Some _ => []
   | None => ["Shipping address is required"]
   end).

Definition validate (req : Request.t) : prog bool :=
  match validation_errors req with
  | [] => Pure true
  | msg :: _ => await (res_json 400 (json_error msg)) ≫= (λ _, Pure false)
  end.

(** [a || b] on an optional string: the empty string is falsy. *)
Definition or_else (a : option string) (b : string) : string :=
  match a with
  | Some s => if decide (s = "") then b else s
  | None => b
  end.

(** [a || null] *)
Definition or_null (a : option string) : option string :=
  match a with
  | Some s => if decide (s = "") then None else Some s
  | None => None
  end.

Definition dquote : string := String (Ascii.ascii_of_nat 34) "".

Definition insufficient_stock (name : string) : string :=
  "Insufficient stock for " +:+ dquote +:+ name +:+ dquote.

(** The body of the first loop, for one item. *)
Definition reserve (item : Item.t) : prog unit :=
  stockResult ← await (client_query (statement
                   (select_product_for_update (Item.productId item))));
  match stockResult with
  | [] =>
      await (client_query ROLLBACK);;
      await (res_json 400 (json_error "One or more products no longer exist"));;
      Return
  | product :: _ =>
      if StockRow.stock_quantity product <? Item.quantity item then
        await (client_query ROLLBACK);;
        await (res_json 400 (json_error (insufficient_stock (StockRow.name product))));;
        Return
      else
        await (client_query (statement
                 (update_product_stock (Item.quantity item) (Item.productId item))))
  end.

(** The body of the second loop. *)
Definition add_item (order : Order.t) (item : Item.t) : prog unit :=
  await (client_query (statement
           (insert_order_item (Order.id order) (Item.productId item)
              (or_else (Item.product_name item) "Product")
              (Item.quantity item)
              (or_null (Item.size item))
              (Item.price item)))).

Definition place_order_try (req : Request.t) : prog unit :=
  ok ← validate req;
  if negb ok then Return else
  let items := Request.items req in
  let total := Request.total req in
  let shippingAddress := default "null" (Request.shippingAddress req) in
  await getClient;;
  await (client_query BEGIN);;
  for_of items reserve;;
  order ← await (client_query (statement
             (insert_order (Request.userId req) total shippingAddress)));
  for_of items (add_item order);;
  await (client_query COMMIT);;
  await (res_json 201 (json_order "Order placed successfully" order)).

Definition place_order_catch (err : error) : prog unit :=
  await client_defined ≫= λ client : bool,
  (if client then await (client_query ROLLBACK) else Pure tt);;
  await (next err).

Definition place_order_finally : prog unit :=
  await client_defined ≫= λ client : bool,
  if client then await client_release else Pure tt.

Definition place_order (req : Request.t) : prog unit :=
  try_catch_finally (place_order_try req) place_order_catch place_order_finally.

(** ** The store behind the client *)

(** Modelled from the spec: [config/database.js] ([getClient], the client's
    [query] and [release]) and the engine behind it are not part of the
    sources. The specification delegates transactions to the store: a unit of
    work opened by BEGIN is persisted by COMMIT as a whole, or not at all.
    The uncommitted writes of a transaction are kept beside the committed
    tables ([InTxn w]); a statement that fails inside a transaction aborts it
    ([Aborted]), after which only ROLLBACK or COMMIT (which then rolls back)
    are accepted; outside a transaction ([Idle]) a statement commits on its
    own. *)
Inductive txn_state : Type :=
| Idle
| InTxn (w : db)
| Aborted.

Definition no_writes : db := mk_db ∅ [] [].

(** The tables as a transaction with writes [w] sees them, and as they are
    once it commits. *)
Definition apply_writes (w d : db) : db :=
  mk_db (products w ∪ products d) (orders d ++ orders w)
    (order_items d ++ order_items w).

(** One statement of the handler, run with pending writes [w] over the
    committed tables [d]; yields the pending writes after it. [fresh] is the
    [gen_random_uuid()] default of an inserted row. *)
Definition exec_dml {R : Type} (q : dml R) (fresh : uuid) (w d : db)
    : outcome R * db :=
  match q in dml R return outcome R * db with
  | select_product_for_update id =>
      (Ok (match products (apply_writes w d) !! id with
           | Some p => [StockRow.mk id (Product.name p) (Product.stock_quantity p)]
           | None => []
           end), w)
  | update_product_stock quantity id =>
      match products (apply_writes w d) !! id with
      | None => (Ok tt, w)
      | Some p =>
          match set_stock_minus quantity p with
          | Ok p' => (Ok tt, mk_db (<[id := p']> (products w)) (orders w) (order_items w))
          | Raise e => (Raise e, w)
          end
      end
  | insert_order user_id total shipping_address =>
      if decimal_10_2 (round_2 total) then
        let order := Order.mk fresh user_id pending (round_2 total) shipping_address in
        (Ok order, mk_db (products w) (orders w ++ [order]) (order_items w))
      else (Raise numeric_value_out_of_range, w)
  | insert_order_item order_id product_id product_name quantity size price =>
      if int4 quantity && decimal_10_2 (round_2 price) then
        let row := OrderItem.mk fresh order_id (Some product_id) product_name
                     quantity size (round_2 price) in
        (Ok tt, mk_db (products w) (orders w) (order_items w ++ [row]))
      else (Raise numeric_value_out_of_range, w)
  end.

(** Modelled from the spec: a query on a client, by the state of the
    client's transaction (see [txn_state]). *)
Definition exec_query {R : Type} (q : sql R) (fresh : uuid) (t : txn_state) (d : db)
    : outcome R * txn_state * db :=
  match q in sql R return outcome R * txn_state * db with
  | BEGIN =>
      match t with
      | Idle => (Ok tt, InTxn no_writes, d)
      | InTxn w => (Ok tt, InTxn w, d)
      | Aborted => (Raise in_failed_sql_transaction, Aborted, d)
      end
  | ROLLBACK => (Ok tt, Idle, d)
  | COMMIT =>
      match t with
      | InTxn w => (Ok tt, Idle, apply_writes w d)
      | Idle | Aborted => (Ok tt, Idle, d)
      end
  | statement q =>
      match t with
      | Idle =>
          let '(r, w') := exec_dml q fresh no_writes d in (r, Idle, apply_writes w' d)
      | InTxn w =>
          match exec_dml q fresh w d with
          | (Ok v, w') => (Ok v, InTxn w', d)
          | (Raise e, _) => (Raise e, Aborted, d)
          end
      | Aborted => (Raise in_failed_sql_transaction, Aborted, d)
      end
  end.

(** What the surroundings decide for one call on the store: whether it fails
    for a reason of their own (connection loss, deadlock, a constraint on a
    table outside [db]), and the identifier a row inserted by it gets. *)
Record choice : Type := mk_choice {
  fault : option error;
  gen_random_uuid : uuid
}.

(** The state of one run of the handler: its variable [client] with the
    state of the transaction on that client, the number of
    [client.release()] calls, the response sent, and the number of calls on
    the store so far. *)
Record session : Type := mk_session {
  client : option txn_state;
  released : nat;
  sent : option response;
  calls : nat
}.

Definition init_session : session := mk_session None 0 None 0.

(** A failed statement aborts the transaction it is in. *)
Definition after_fault (t : txn_state) : txn_state :=
  match t with
  | Idle => Idle
  | InTxn _ | Aborted => Aborted
  end.

(** Modelled from the spec: one call of the handler against the store.
    [getClient] binds the handler's [client]; a query on an undefined client
    is a [TypeError]; a fault leaves the tables as they are. *)
Definition exec (ch : choice) {R : Type} (c : eff R) (d : db) (s : session)
    : outcome R * db * session :=
  match c in eff R return outcome R * db * session with
  | getClient =>
      match fault ch with
      | Some e => (Raise e, d, mk_session (client s) (released s) (sent s) (S (calls s)))
      | None => (Ok tt, d, mk_session (Some Idle) (released s) (sent s) (S (calls s)))
      end
  | client_query q =>
      match client s with
      | None => (Raise TypeError, d, s)
      | Some t =>
          match fault ch with
          | Some e =>
              (Raise e, d,
               mk_session (Some (after_fault t)) (released s) (sent s) (S (calls s)))
          | None =>
              let '(r, t', d') := exec_query q (gen_random_uuid ch) t d in
              (r, d', mk_session (Some t') (released s) (sent s) (S (calls s)))
          end
      end
  | client_release =>
      (Ok tt, d, mk_session (client s) (S (released s)) (sent s) (calls s))
  | client_defined =>
      (Ok (bool_decide (is_Some (client s))), d, s)
  | res_json st b =>
      (Ok tt, d, mk_session (client s) (released s) (Some (mk_response st b)) (calls s))
  | next err =>
      (Ok tt, d, mk_session (client s) (released s) (Some (errorHandler err)) (calls s))
  end.

(** How a run of a handler ends. *)
Inductive completion (A : Type) : Type :=
| Normal (a : A)
| Returned
| Thrown (e : error).
Arguments Normal {A} a.
Arguments Returned {A}.
Arguments Thrown {A} e.

(** A run of a handler on its own: the [n]-th call on the store gets the
    choice [env n]. *)
Fixpoint run (env : nat -> choice) {A : Type} (p : prog A) (d : db) (s : session)
    : completion A * db * session :=
  match p with
  | Pure a => (Normal a, d, s)
  | Throw e => (Thrown e, d, s)
  | Return => (Returned, d, s)
  | Call c k =>
      let '(r, d', s') := exec (env (calls s)) c d s in
      run env (k r) d' s'
  end.

(** POST /orders on the tables [d]. *)
Definition handle (env : nat -> choice) (req : Request.t) (d : db)
    : completion unit * db * session :=
  run env (place_order req) d init_session.

(** The surroundings that never fail. *)
Definition no_faults (env : nat -> choice) : Prop :=
  ∀ n, fault (env n) = None.

Definition succeeded (s : session) : Prop := status <$> sent s = Some 201.

(** ** What the specification says, as predicates *)

Definition all_consistent (d : db) : Prop :=
  ∀ pid p, products d !! pid = Some p → in_stock_consistent p.

(** The contract of the specification for [decrement_stock], at one call. *)
Definition decrementStock_contract (d : db) (pid : uuid) (q : Z) : Prop :=
  ∀ p, products d !! pid = Some p →
    (Product.stock_quantity p < q → decrement_stock pid q d = (Ok false, d)) ∧
    (q ≤ Product.stock_quantity p →
       ∃ d' p', decrement_stock pid q d = (Ok true, d') ∧
         products d' !! pid = Some p' ∧
         Product.stock_quantity p' = Product.stock_quantity p - q).

(** The table after a successful decrement of [pid] by [q]. *)
Definition decremented (pid : uuid) (q : Z) (p : Product.t) (d : db) : db :=
  mk_db (<[pid := Product.mk (Product.name p) (Product.price p)
                    (Product.stock_quantity p - q >? 0)
                    (Product.stock_quantity p - q)]> (products d))
    (orders d) (order_items d).

(** Two rows that differ at most in [product_id]. *)
Definition same_snapshot (i i' : OrderItem.t) : Prop :=
  OrderItem.id i' = OrderItem.id i ∧
  OrderItem.order_id i' = OrderItem.order_id i ∧
  OrderItem.product_name i' = OrderItem.product_name i ∧
  OrderItem.quantity i' = OrderItem.quantity i ∧
  OrderItem.size i' = OrderItem.size i ∧
  OrderItem.price i' = OrderItem.price i.

(** What a call may be, all along a handler. *)
Fixpoint only {A : Type} (P : ∀ R, eff R → Prop) (p : prog A) : Prop :=
  match p with
  | Call c k => P _ c ∧ ∀ r, only P (k r)
  | Pure _ | Throw _ | Return => True
  end.

Definition not_release (R : Type) (c : eff R) : Prop :=
  match c with
  | client_release => False
  | _ => True
  end.

(** The stock decrement of one line item, on the [products] table. *)
Definition take_stock (ps : gmap uuid Product.t) (i : Item.t) : gmap uuid Product.t :=
  alter (λ p, Product.mk (Product.name p) (Product.price p)
                (Product.stock_quantity p - Item.quantity i >? 0)
                (Product.stock_quantity p - Item.quantity i))
    (Item.productId i) ps.

(** All stock decrements of a request, in the order of its items. *)
Definition decrement_all (items : list Item.t) (ps : gmap uuid Product.t)
    : gmap uuid Product.t :=
  foldl take_stock ps items.

(** No line item fails: each product exists and has the stock asked for
    when its turn comes. *)
Fixpoint reservable (items : list Item.t) (ps : gmap uuid Product.t) : bool :=
  match items with
  | [] => true
  | i :: items' =>
      match ps !! Item.productId i with
      | Some p =>
          (Item.quantity i <=? Product.stock_quantity p)
          && reservable items' (take_stock ps i)
      | None => false
      end
  end.

(** The [order_items] row of one line item. *)
Definition item_row (o : Order.t) (id : uuid) (i : Item.t) : OrderItem.t :=
  OrderItem.mk id (Order.id o) (Some (Item.productId i))
    (or_else (Item.product_name i) "Product") (Item.quantity i)
    (or_null (Item.size i)) (round_2 (Item.price i)).

(** The order row of a request. *)
Definition order_row (id : uuid) (req : Request.t) : Order.t :=
  Order.mk id (Request.userId req) pending (round_2 (Request.total req))
    (default "null" (Request.shippingAddress req)).

(** [d'] is [d] with the whole order of [req] persisted: every stock
    decrement, the order row [o], and one item row per line item. *)
Definition persisted (req : Request.t) (o : Order.t) (d d' : db) : Prop :=
  products d' = decrement_all (Request.items req) (products d) ∧
  orders d' = orders d ++ [o] ∧
  (∃ id, o = order_row id req) ∧
  ∃ ids, length ids = length (Request.items req) ∧
    order_items d' = order_items d ++ zip_with (item_row o) ids (Request.items req).

(** The total the line items add up to, which the handler never computes. *)
Definition items_total (items : list Item.t) : Number.t :=
  foldr (λ i acc, Number.add (Number.times (Item.price i) (Item.quantity i)) acc)
    (Number.mk 0 0) items.

(** The specification on the total, at one request: when it is answered
    201, the order row added carries the total of the request, as sent. *)
Definition total_as_sent (env : nat → choice) (req : Request.t) (d : db) : Prop :=
  succeeded (handle env req d).2 →
  ∃ o, orders (handle env req d).1.2 = orders d ++ [o] ∧
    Number.eqv (hundredths (Order.total o)) (Request.total req).

(** ** Example tables *)

Definition db_three_sneakers : db :=
  mk_db {[ 1%N := Product.mk "Sneaker" 1999 true 3 ]} [] [].

(** Surroundings without faults, handing out the identifiers 100, 101, ... *)
Definition env_quiet : nat → choice :=
  λ n, mk_choice None (N.of_nat (100 + n)).

(** An order for the whole stock of [db_three_sneakers], with a total that
    has nothing to do with its line items. *)
Definition req_whole_stock : Request.t :=
  Request.mk 7%N [Item.mk 1%N 3 (hundredths 1999) None (Some "Sneaker")]
    (hundredths 5) (Some "{}").

(** An order with a total of half a hundredth, 0.005. *)
Definition req_half_cent : Request.t :=
  Request.mk 7%N [Item.mk 1%N 1 (hundredths 1999) None (Some "Sneaker")]
    (Number.mk 5 3) (Some "{}").

Definition db_max_stock : db :=
  mk_db {[ 1%N := Product.mk "Sneaker" 1999 true int4_max ]} [] [].

Definition db_sold_out : db :=
  mk_db {[ 1%N := Product.mk "Sneaker" 1999 false 0 ]} [] [].

Definition db_one_order : db :=
  mk_db {[ 1%N := Product.mk "Sneaker" 1999 true 4 ]}
    [Order.mk 10%N 7%N pending 1999 "{}"]
    [OrderItem.mk 11%N 10%N (Some 1%N) "Sneaker" 1 None 1999].

(** ** Two order requests at once *)

(** One request being handled: what is left of its handler, and its state. *)
Record thread : Type := mk_thread {
  code : prog unit;
  st : session
}.

(** Modelled from the spec: the store under two concurrent requests, each on
    a client of its own. Concurrency control is the store's: exclusive locks
    are acquired per product row, held for the duration of the enclosing
    transaction, released on commit or rollback. [locks] tells which request
    holds the lock of which row. *)
Record world : Type := mk_world {
  store : db;
  locks : gmap uuid bool;
  thr : bool → thread
}.

(** The row a statement locks: [SELECT ... FOR UPDATE] and [UPDATE] lock the
    row they name. *)
Definition locked_row {R : Type} (c : eff R) : option uuid :=
  match c with
  | client_query q =>
      match q with
      | statement (select_product_for_update id) => Some id
      | statement (update_product_stock _ id) => Some id
      | _ => None
      end
  | _ => None
  end.

Definition ends_transaction {R : Type} (c : eff R) : bool :=
  match c with
  | client_query q =>
      match q with
      | COMMIT | ROLLBACK => true
      | _ => false
      end
  | _ => false
  end.

(** Request [i] need not wait to make the call [c]: the row it locks, if
    any, is not locked by the other request. *)
Definition may_run (i : bool) {R : Type} (c : eff R) (l : gmap uuid bool) : bool :=
  match locked_row c with
  | Some pid =>
      match l !! pid with
      | Some j => bool_decide (j = i)
      | None => true
      end
  | None => true
  end.

(** The locks after request [i], in state [s], has made the call [c]
    without a fault: inside a transaction a locking statement takes the lock
    of its row if the row exists; COMMIT and ROLLBACK give up every lock of
    the request. *)
Definition locks_after (i : bool) {R : Type} (c : eff R) (s : session) (d : db)
    (l : gmap uuid bool) : gmap uuid bool :=
  if ends_transaction c then filter (λ kv, kv.2 ≠ i) l
  else
    match locked_row c, client s with
    | Some pid, Some (InTxn w) =>
        match products (apply_writes w d) !! pid with
        | Some _ => <[pid := i]> l
        | None => l
        end
    | _, _ => l
    end.

Definition set_thread (i : bool) (t : thread) (f : bool → thread) : bool → thread :=
  λ j, if bool_decide (j = i) then t else f j.

(** One call of request [i], with the choice [ch] of the surroundings. A
    call that would have to wait for a lock does not happen, unless the
    surroundings make it fail (lock timeout, deadlock detection); a failed
    call changes no lock. *)
Definition step_thread (ch : choice) (i : bool) (w : world) : option world :=
  match code (thr w i) with
  | Call c k =>
      let '(r, d', s') := exec ch c (store w) (st (thr w i)) in
      match fault ch with
      | Some _ =>
          Some (mk_world d' (locks w) (set_thread i (mk_thread (k r) s') (thr w)))
      | None =>
          if may_run i c (locks w)
          then Some (mk_world d'
                       (locks_after i c (st (thr w i)) (store w) (locks w))
                       (set_thread i (mk_thread (k r) s') (thr w)))
          else None
      end
  | Pure _ | Throw _ | Return => None
  end.

Definition step (w w' : world) : Prop :=
  ∃ ch i, step_thread ch i w = Some w'.

(** Two requests arriving on the tables [d]. *)
Definition arrive (d : db) (req : bool → Request.t) : world :=
  mk_world d ∅ (λ i, mk_thread (place_order (req i)) init_session).

(** The quantity of product [pid] that a list of line items asks for. *)
Definition demand (items : list Item.t) (pid : uuid) : Z :=
  foldr (λ i acc, if decide (Item.productId i = pid) then Item.quantity i + acc else acc)
    0 items.

Definition stock_nonneg (ps : gmap uuid Product.t) : Prop :=
  ∀ pid p, ps !! pid = Some p → 0 ≤ Product.stock_quantity p.

(** A run of the two requests by a schedule: who makes the next call, and
    with which choice of the surroundings. A call that has to wait is
    skipped. *)
Fixpoint play (sched : list (bool * choice)) (w : world) : world :=
  match sched with
  | [] => w
  | (i, ch) :: sched' => play sched' (default w (step_thread ch i w))
  end.

(** The last pair of sneakers, and two requests for it. *)
Definition db_last_pair : db :=
  mk_db {[ 1%N := Product.mk "Sneaker" 1999 true 1 ]} [] [].

Definition req_last_pair (i : bool) : Request.t :=
  Request.mk (if i then 7%N else 8%N)
    [Item.mk 1%N 1 (hundredths 1999) None (Some "Sneaker")] (hundredths 1999)
    (Some "{}").

(** The two requests call in turn; the second has to wait for the row
    while the first holds its lock. *)
Definition last_pair_schedule : list (bool * choice) :=
  imap (λ n i, (i, mk_choice None (N.of_nat (100 + n))))
    [true; false; true; false; true; false; true; false; true; false; true;
     false; true; false; true; false; true; false; false; false; false; false].

(** ** Where a request is, and what holds there

    The handler of a request goes through a few places; at each, what is
    left of it is a known piece of [place_order]. *)

Definition guarded (p : prog unit) : prog unit :=
  try_catch_finally p place_order_catch place_order_finally.

Definition commit_and_respond (order : Order.t) : prog unit :=
  await (client_query COMMIT);;
  await (res_json 201 (json_order "Order placed successfully" order)).

Definition after_reserve (req : Request.t) : prog unit :=
  order ← await (client_query (statement
             (insert_order (Request.userId req) (Request.total req)
                (default "null" (Request.shippingAddress req)))));
  for_of (Request.items req) (add_item order);;
  commit_and_respond order.

Definition code_start (req : Request.t) : prog unit :=
  guarded (await getClient;;
           await (client_query BEGIN);;
           for_of (Request.items req) reserve;;
           after_reserve req).

Definition code_begun (req : Request.t) : prog unit :=
  guarded (await (client_query BEGIN);;
           for_of (Request.items req) reserve;;
           after_reserve req).

Definition code_reserving (req : Request.t) (rest : list Item.t) : prog unit :=
  guarded (for_of rest reserve;; after_reserve req).

Definition code_checked (req : Request.t) (item : Item.t) (rest : list Item.t)
    : prog unit :=
  guarded ((await (client_query (statement
                     (update_product_stock (Item.quantity item) (Item.productId item))));;
            for_of rest reserve);;
           after_reserve req).

Definition code_adding (order : Order.t) (rest : list Item.t) : prog unit :=
  guarded (for_of rest (add_item order);; commit_and_respond order).

Inductive phase : Type :=
| Start
| Begun
| Reserving (done rest : list Item.t)
| Checked (done : list Item.t) (item : Item.t) (rest : list Item.t)
| Adding (order : Order.t) (rest : list Item.t)
| Committed
| Failed.

(** Calls that neither write a row nor commit. *)
Definition quiet (R : Type) (c : eff R) : Prop :=
  match c with
  | client_query q =>
      match q with
      | ROLLBACK => True
      | _ => False
      end
  | getClient => False
  | _ => True
  end.

(** Quiet calls that do not answer 201 either. *)
Definition harmless (R : Type) (c : eff R) : Prop :=
  match c with
  | res_json st _ => st ≠ 201
  | _ => quiet R c
  end.

(** The pending writes [w] of request [i], once it has reserved the line
    items [done]: each row written is locked by [i], has stock left, and is
    the committed row less what [done] asks of it. *)
Definition txn_ok (i : bool) (done : list Item.t) (w d : db) (l : gmap uuid bool)
    : Prop :=
  ∀ pid,
    match products w !! pid with
    | Some row =>
        l !! pid = Some i ∧ 0 ≤ Product.stock_quantity row ∧
        ∃ row0, products d !! pid = Some row0 ∧
          Product.stock_quantity row = Product.stock_quantity row0 - demand done pid
    | None => demand done pid = 0
    end.

Definition thread_ok (i : bool) (req : Request.t) (ph : phase) (t : thread)
    (d : db) (l : gmap uuid bool) : Prop :=
  match ph with
  | Start => code t = code_start req ∧ sent (st t) = None
  | Begun =>
      code t = code_begun req ∧ sent (st t) = None ∧ client (st t) = Some Idle
  | Reserving done rest =>
      code t = code_reserving req rest ∧ sent (st t) = None ∧
      Request.items req = done ++ rest ∧
      ∃ w, client (st t) = Some (InTxn w) ∧ txn_ok i done w d l
  | Checked done item rest =>
      code t = code_checked req item rest ∧ sent (st t) = None ∧
      Request.items req = done ++ item :: rest ∧
      ∃ w, client (st t) = Some (InTxn w) ∧ txn_ok i done w d l ∧
        l !! Item.productId item = Some i ∧
        ∃ row, products (apply_writes w d) !! Item.productId item = Some row ∧
          Item.quantity item ≤ Product.stock_quantity row
  | Adding order rest =>
      code t = code_adding order rest ∧ sent (st t) = None ∧
      ∃ w, client (st t) = Some (InTxn w) ∧ txn_ok i (Request.items req) w d l
  | Committed => only quiet (code t)
  | Failed => only harmless (code t) ∧ ¬ succeeded (st t)
  end.

(** What the committed orders have taken of product [pid]. *)
Definition taken (req : Request.t) (ph : phase) (pid : uuid) : Z :=
  match ph with
  | Committed => demand (Request.items req) pid
  | _ => 0
  end.

(** The committed stock is the stock of [d0] less what the committed
    orders have taken. *)
Definition accounted (d0 : db) (req : bool → Request.t) (ph : bool → phase) (d : db)
    : Prop :=
  ∀ pid,
    Product.stock_quantity <$> products d !! pid
    = (λ p0, Product.stock_quantity p0
             - (taken (req true) (ph true) pid + taken (req false) (ph false) pid))
      <$> products d0 !! pid.

(** The invariant of two concurrent requests on the tables [d0]. *)
Definition inv (d0 : db) (req : bool → Request.t) (w : world) : Prop :=
  ∃ ph : bool → phase,
    (∀ i, thread_ok i (req i) (ph i) (thr w i) (store w) (locks w)) ∧
    stock_nonneg (products (store w)) ∧
    accounted d0 req ph (store w).

(** A step of request [i] from [(d, l)] to [(d', l')] keeps the locks of
    the other request and the rows under them. *)
Definition frame (i : bool) (d : db) (l : gmap uuid bool) (d' : db)
    (l' : gmap uuid bool) : Prop :=
  ∀ pid, l !! pid = Some (negb i) →
    l' !! pid = Some (negb i) ∧ products d' !! pid = products d !! pid.

(** ** More on POST /orders *)

(** The message with which the first loop gives up, if it does: the first
    line item whose product is missing, or has less stock than asked for
    when its turn comes. *)
Fixpoint refusal (items : list Item.t) (ps : gmap uuid Product.t) : option string :=
  match items with
  | [] => None
  | i :: items' =>
      match ps !! Item.productId i with
      | None => Some "One or more products no longer exist"
      | Some p =>
          if Product.stock_quantity p <? Item.quantity i
          then Some (insufficient_stock (Product.name p))
          else refusal items' (take_stock ps i)
      end
  end.

(** Every stock of the table is an INTEGER value. *)
Definition stock_in_range (ps : gmap uuid Product.t) : Prop :=
  ∀ pid p, ps !! pid = Some p → int4 (Product.stock_quantity p) = true.

(** The amounts of a request fit their DECIMAL(10,2) columns. *)
Definition amounts_fit (req : Request.t) : Prop :=
  decimal_10_2 (round_2 (Request.total req)) = true ∧
  Forall (λ i, decimal_10_2 (round_2 (Item.price i)) = true) (Request.items req).

(** Two line items for one product, in one order. *)
Definition req_twice : Request.t :=
  Request.mk 7%N
    [Item.mk 1%N 1 (hundredths 1999) None None;
     Item.mk 1%N 2 (hundredths 1999) (Some "") (Some "")]
    (hundredths 5997) (Some "{}").

(** An order for more than [db_three_sneakers] has. *)
Definition req_too_many : Request.t :=
  Request.mk 7%N [Item.mk 1%N 4 (hundredths 1999) None None] (hundredths 7996)
    (Some "{}").

(** A request without line items. *)
Definition req_empty : Request.t := Request.mk 7%N [] (hundredths 0) (Some "{}").

(** ** More on the product handlers and the stock functions *)

(** The body that asks for what [b2] asks for and, where [b2] is silent,
    for what [b1] asks for. *)
Definition body_over (b2 b1 : ProductBody.t) : ProductBody.t :=
  ProductBody.mk
    (match ProductBody.name b2 with Some x => Some x | None => ProductBody.name b1 end)
    (match ProductBody.category b2 with
     | Some x => Some x
     | None => ProductBody.category b1
     end)
    (match ProductBody.price b2 with Some x => Some x | None => ProductBody.price b1 end)
    (match ProductBody.stock_quantity b2 with
     | Some x => Some x
     | None => ProductBody.stock_quantity b1
     end).

Definition body_new_sneaker : ProductBody.t :=
  ProductBody.mk (Some "Runner") (Some "shoes") (Some (hundredths 4999)) None.

Definition body_price (p : Number.t) : ProductBody.t :=
  ProductBody.mk None None (Some p) None.

Definition body_stock (q : Z) : ProductBody.t :=
  ProductBody.mk None None None (Some q).

Definition body_nothing : ProductBody.t := ProductBody.mk None None None None.

(** The row PATCH writes over [current] for the body [b]. *)
Definition patched (current : Product.t) (b : ProductBody.t) : Product.t :=
  Product.mk
    (default (Product.name current) (ProductBody.name b))
    (from_option round_2 (Product.price current) (ProductBody.price b))
    (default (Product.stock_quantity current) (ProductBody.stock_quantity b) >? 0)
    (default (Product.stock_quantity current) (ProductBody.stock_quantity b)).

(** ** The order handlers beside POST /orders *)

(** The values [body('status').isIn([...])] lets through. *)
Definition status_of_string (s : string) : option order_status :=
  if decide (s = "pending") then Some pending
  else if decide (s = "processing") then Some processing
  else if decide (s = "shipped") then Some shipped
  else if decide (s = "completed") then Some completed
  else if decide (s = "cancelled") then Some cancelled
  else None.

Definition set_status (st : order_status) (o : Order.t) : Order.t :=
  Order.mk (Order.id o) (Order.user_id o) st (Order.total o) (Order.shipping_address o).

(** PATCH /orders/:orderId/status ([src/routes/admin.js]): one UPDATE of
    [orders], through the pool; [fault] is what the query throws, if it
    does, and [status] the field of the body, if it has one. *)
Definition patch_order_status (fault : option error) (orderId : uuid)
    (status : option string) (d : db) : response * db :=
  match status ≫= status_of_string with
  | None => (mk_response 400 (json_error "Invalid status"), d)
  | Some st =>
      match fault with
      | Some e => (errorHandler e, d)
      | None =>
          let rows :=
            set_status st <$> filter (λ o, Order.id o = orderId) (orders d) in
          match rows with
          | [] => (mk_response 404 (json_error "Order not found"), d)
          | order :: _ =>
              (mk_response 200 (json_order "Order status updated" order),
               mk_db (products d)
                 ((λ o, if decide (Order.id o = orderId) then set_status st o else o)
                    <$> orders d)
                 (order_items d))
          end
      end
  end.

(** GET /orders ([src/routes/user.js]): the loop that files the item rows
    of the second query under their order, in a [Map] of arrays. *)
Definition itemsByOrderId (rows : list OrderItem.t) : gmap uuid (list OrderItem.t) :=
  foldl (λ m item,
           let m' := match m !! OrderItem.order_id item with
                     | Some _ => m
                     | None => <[OrderItem.order_id item := []]> m
                     end in
           <[OrderItem.order_id item :=
               default [] (m' !! OrderItem.order_id item) ++ [item]]> m')
    ∅ rows.

(** [orders.map((order) => ({ ...order, order_items: itemsByOrderId.get(order.id) || [] }))]
    on the rows of the two queries. *)
Definition with_order_items (orders : list Order.t) (rows : list OrderItem.t)
    : list (Order.t * list OrderItem.t) :=
  (λ order, (order, default [] (itemsByOrderId rows !! Order.id order))) <$> orders.

Definition db_shipped : db :=
  mk_db {[ 1%N := Product.mk "Sneaker" 1999 true 4 ]}
    [Order.mk 10%N 7%N shipped 1999 "{}"; Order.mk 12%N 8%N pending 500 "{}"]
    [OrderItem.mk 11%N 10%N (Some 1%N) "Sneaker" 1 None 1999;
     OrderItem.mk 13%N 12%N (Some 1%N) "Sneaker" 2 None 250;
     OrderItem.mk 14%N 10%N None "Boot" 1 None 0].

(** ** Wishlist and reviews ([src/routes/user.js])

    Each of these handlers sends one statement through the pool; [fault]
    is what the query throws for a reason of the surroundings, if it does.
    The caller is the user the [authenticate] middleware has let in, a row
    of [users]. *)

Module WishlistRow.
(** A row of [wishlist], [UNIQUE (user_id, product_id)]. *)
Record t : Type := mk {
  user_id : uuid;
  product_id : uuid
}.
End WishlistRow.

Module Review.
(** A row of [reviews], [UNIQUE (user_id, product_id)]. *)
Record t : Type := mk {
  id : uuid;
  product_id : uuid;
  user_id : uuid;
  rating : Z;
  title : option string;
  content : option string
}.
End Review.

#[global] Instance wishlist_row_eq_dec : EqDecision WishlistRow.t.
Proof. solve_decision. Defined.
#[global] Instance review_eq_dec : EqDecision Review.t.
Proof. solve_decision. Defined.

(** What a handler answers: data with a status, or an error response. *)
Inductive answer (A : Type) : Type :=
| answered (status : Z) (data : A)
| refused (r : response).
Arguments answered {A} status data.
Arguments refused {A} r.

(** POST /wishlist:
    [INSERT ... ON CONFLICT (user_id, product_id) DO NOTHING]; the product
    must exist ([REFERENCES products]). The answer is 201 whether or not
    a row was added. *)
Definition wishlist_add (fault : option error) (userId productId : uuid)
    (ps : gmap uuid Product.t) (wl : list WishlistRow.t)
    : response * list WishlistRow.t :=
  match fault with
  | Some e => (errorHandler e, wl)
  | None =>
      if decide (WishlistRow.mk userId productId ∈ wl)
      then (mk_response 201 (json_message "Added to wishlist"), wl)
      else
        match ps !! productId with
        | None => (errorHandler foreign_key_violation, wl)
        | Some _ =>
            (mk_response 201 (json_message "Added to wishlist"),
             wl ++ [WishlistRow.mk userId productId])
        end
  end.

(** DELETE /wishlist/:productId *)
Definition wishlist_remove (fault : option error) (userId productId : uuid)
    (wl : list WishlistRow.t) : response * list WishlistRow.t :=
  match fault with
  | Some e => (errorHandler e, wl)
  | None =>
      (mk_response 200 (json_message "Removed from wishlist"),
       filter (λ r, r ≠ WishlistRow.mk userId productId) wl)
  end.

(** GET /wishlist: the product ids of the caller's rows, newest first. *)
Definition wishlist_ids (fault : option error) (userId : uuid)
    (wl : list WishlistRow.t) : answer (list uuid) :=
  match fault with
  | Some e => refused (errorHandler e)
  | None =>
      answered 200
        (WishlistRow.product_id
           <$> reverse (filter (λ r, WishlistRow.user_id r = userId) wl))
  end.

Module ReviewBody.
Record t : Type := mk {
  productId : uuid;
  rating : Z;
  title : option string;
  content : option string
}.
End ReviewBody.

(** POST /reviews. A unique violation is answered by the handler itself,
    every other error by the error middleware. *)
Definition review_post (fault : option error) (new_id userId : uuid)
    (b : ReviewBody.t) (ps : gmap uuid Product.t) (rs : list Review.t)
    : answer Review.t * list Review.t :=
  if (ReviewBody.rating b <? 1) || (5 <? ReviewBody.rating b)
  then (refused (mk_response 400 (json_error "Rating must be between 1 and 5")), rs)
  else
    let thrown :=
      match fault with
      | Some e => Some e
      | None =>
          if decide (Exists (λ r, Review.user_id r = userId ∧
                                  Review.product_id r = ReviewBody.productId b) rs)
          then Some unique_violation
          else match ps !! ReviewBody.productId b with
               | None => Some foreign_key_violation
               | Some _ => None
               end
      end in
    match thrown with
    | Some unique_violation =>
        (refused (mk_response 409 (json_error "You already reviewed this product")), rs)
    | Some e => (refused (errorHandler e), rs)
    | None =>
        let review := Review.mk new_id (ReviewBody.productId b) userId
                        (ReviewBody.rating b)
                        (or_null (ReviewBody.title b)) (or_null (ReviewBody.content b)) in
        (answered 201 review, rs ++ [review])
    end.

(** GET /reviews/:productId/me: [result.rows[0] || null]. *)
Definition review_me (fault : option error) (userId productId : uuid)
    (rs : list Review.t) : answer (option Review.t) :=
  match fault with
  | Some e => refused (errorHandler e)
  | None =>
      answered 200
        (head (filter (λ r, Review.product_id r = productId ∧ Review.user_id r = userId)
                 rs))
  end.

(** A user has at most one review of a product. *)
Definition one_review_each (rs : list Review.t) : Prop :=
  NoDup ((λ r, (Review.user_id r, Review.product_id r)) <$> rs).

Definition wishlist_of_seven : list WishlistRow.t :=
  [WishlistRow.mk 7%N 1%N; WishlistRow.mk 8%N 1%N].

Definition review_five_stars : ReviewBody.t :=
  ReviewBody.mk 1%N 5 (Some "") (Some "Fits well").

(** The reviews of product 1 by the users 7 and 8. *)
Definition reviews_of_seven : list Review.t :=
  [Review.mk 20%N 1%N 7%N 5 None (Some "Fits well");
   Review.mk 22%N 1%N 8%N 3 (Some "Narrow") None].

(** ** The middleware in front of the handlers *)

(** [s.includes(needle)] *)
Fixpoint includes (needle s : string) : bool :=
  String.prefix needle s ||
  match s with
  | EmptyString => false
  | String _ s' => includes needle s'
  end.

(** [s.startsWith(p)] and [s.substring(n)] *)
Definition startsWith (p s : string) : bool := String.prefix p s.
Definition substring_from (n : nat) (s : string) : string :=
  String.substring n (String.length s - n) s.

Module JsError.
(** What the error middleware looks at in what was thrown; a field the
    object does not have is [None]. *)
Record t : Type := mk {
  name : option string;
  message : option string;
  code : option string;
  status : option Z
}.
End JsError.

Module Middleware.
(** The status and the [error] text of the JSON body; the text is absent
    when [err.message] is, in the last case. *)
Record reply : Type := mk_reply {
  status : Z;
  error : option string
}.

(** [a || b] on an optional text. *)
Definition text_or (a : option string) (b : string) : string :=
  match a with
  | Some s => if decide (s = "") then b else s
  | None => b
  end.

(** [errorHandler] in full; [production] is
    [process.env.NODE_ENV === 'production']. *)
Definition errorHandler (production : bool) (err : JsError.t) : reply :=
  if bool_decide (JsError.name err = Some "ValidationError")
     || bool_decide (JsError.name err = Some "BadRequestError")
  then mk_reply 400 (Some (text_or (JsError.message err) "Validation error"))
  else if bool_decide (JsError.name err = Some "UnauthorizedError")
          || from_option (includes "token") false (JsError.message err)
  then mk_reply 401 (Some (text_or (JsError.message err) "Authentication failed"))
  else if bool_decide (JsError.code err = Some "23505")
  then mk_reply 409 (Some "A record with this information already exists")
  else if bool_decide (JsError.code err = Some "23503")
  then mk_reply 400 (Some "Invalid reference to related record")
  else
    mk_reply
      (match JsError.status err with
       | Some st => if decide (st = 0) then 500 else st
       | None => 500
       end)
      (if production then Some "Internal server error" else JsError.message err).
End Middleware.

(** An error of [error] as the object the driver or the runtime throws,
    with the message [message]: a database error has the name ["error"] and
    its SQLSTATE as [code]. *)
Definition js_error (e : error) (message : string) : JsError.t :=
  match e with
  | unique_violation => JsError.mk (Some "error") (Some message) (Some "23505") None
  | foreign_key_violation => JsError.mk (Some "error") (Some message) (Some "23503") None
  | numeric_value_out_of_range =>
      JsError.mk (Some "error") (Some message) (Some "22003") None
  | in_failed_sql_transaction =>
      JsError.mk (Some "error") (Some message) (Some "25P02") None
  | connection_failure => JsError.mk (Some "Error") (Some message) None None
  | TypeError => JsError.mk (Some "TypeError") (Some message) None None
  end.

(** *** [authenticate] and [requireAdmin] ([middleware/auth.js]) *)

Inductive app_role : Type := admin | user.

#[global] Instance app_role_eq_dec : EqDecision app_role.
Proof. solve_decision. Defined.

(** What a middleware does with a request: pass it on, with the
    [req.userId] it has set, or answer it. *)
Inductive gate : Type :=
| pass (userId : uuid)
| stop (status : Z) (error : string).

(** The token of a request: the rest of an [Authorization] header that
    starts with ["Bearer "], or else the [accessToken] cookie. An empty
    text is falsy. *)
Definition request_token (authorization cookie : option string) : option string :=
  match authorization with
  | Some authHeader =>
      if negb (bool_decide (authHeader = "")) && startsWith "Bearer " authHeader
      then Some (substring_from 7 authHeader)
      else match cookie with
           | Some c => if decide (c = "") then None else Some c
           | None => None
           end
  | None =>
      match cookie with
      | Some c => if decide (c = "") then None else Some c
      | None => None
      end
  end.

Section Auth.
(** [jwt.verify(token, JWT_SECRET)] of the library: the payload's [userId]
    if it has one, or [None] when it throws. *)
Variable jwt_verify : string → option (option uuid).

(** [verifyAccessToken]: the payload, or the message of the error thrown
    in place of the library's. *)
Definition verifyAccessToken (token : string) : string + option uuid :=
  match jwt_verify token with
  | Some decoded => inr decoded
  | None => inl "Invalid or expired access token"
  end.

(** [authenticate]. [active] are the ids of the rows of [users] with
    [is_active = true]; [fault] is the message of what the query throws,
    if it does. *)
Definition authenticate (fault : option string) (active : gset uuid)
    (authorization cookie : option string) : gate :=
  match request_token authorization cookie with
  | None => stop 401 "Authentication required. Please provide a valid token."
  | Some token =>
      if decide (token = "")
      then stop 401 "Authentication required. Please provide a valid token."
      else
        let thrown :=
          match verifyAccessToken token with
          | inl message => inl message
          | inr decoded =>
              match fault with
              | Some message => inl message
              | None => inr decoded
              end
          end in
        match thrown with
        | inl message =>
            if includes "expired" message
            then stop 401 "Token has expired. Please refresh your token."
            else stop 401 "Invalid authentication token."
        | inr (Some userId) =>
            if decide (userId ∈ active) then pass userId
            else stop 401 "User not found or account is inactive."
        | inr None => stop 401 "User not found or account is inactive."
        end
  end.

(** [requireAdmin], after [authenticate] has set [req.userId]. *)
Definition requireAdmin (fault : option string) (user_roles : list (uuid * app_role))
    (req_userId : option uuid) : gate :=
  match req_userId with
  | None => stop 401 "Authentication required."
  | Some userId =>
      match fault with
      | Some _ => stop 500 "Error checking admin privileges."
      | None =>
          match filter (λ r, r.1 = userId ∧ r.2 = admin) user_roles with
          | [] => stop 403 "Admin access required."
          | _ :: _ => pass userId
          end
      end
  end.

(** [router.use(authenticate, requireAdmin)] of [admin.js]. *)
Definition admin_gate (fault1 fault2 : option string) (active : gset uuid)
    (user_roles : list (uuid * app_role)) (authorization cookie : option string)
    : gate :=
  match authenticate fault1 active authorization cookie with
  | pass userId => requireAdmin fault2 user_roles (Some userId)
  | stop st e => stop st e
  end.
End Auth.

(** [has_role(_user_id, _role)] of migration 006. *)
Definition has_role (user_roles : list (uuid * app_role)) (_user_id : uuid)
    (_role : app_role) : bool :=
  bool_decide (Exists (λ r, r.1 = _user_id ∧ r.2 = _role) user_roles).

(** A verifier that knows one token. *)
Definition verify_only (token : string) (userId : uuid) : string → option (option uuid) :=
  λ t, if decide (t = token) then Some (Some userId) else None.

(** * Properties *)

(** ** Integer range *)

Lemma int4_spec z : int4 z = true ↔ int4_min ≤ z ≤ int4_max.
Proof. unfold int4. rewrite andb_true_iff, !Z.leb_le. tauto. Qed.

Lemma int4_false z : int4 z = false ↔ z < int4_min ∨ int4_max < z.
Proof.
  rewrite <- not_true_iff_false, int4_spec. lia.
Qed.

(** ** The stock statements keep [in_stock] in step, [restore_stock] apart *)

Lemma set_stock_minus_consistent q p p' :
  set_stock_minus q p = Ok p' → in_stock_consistent p'.
Proof.
  unfold set_stock_minus. case_match; [|done].
  intros [= <-]. reflexivity.
Qed.

Lemma set_stock_minus_Ok q p p' :
  set_stock_minus q p = Ok p' →
  p' = Product.mk (Product.name p) (Product.price p)
         (Product.stock_quantity p - q >? 0) (Product.stock_quantity p - q)
  ∧ int4 (Product.stock_quantity p - q) = true.
Proof.
  unfold set_stock_minus. case_match; [|done]. by intros [= <-].
Qed.

Lemma all_consistent_insert d pid p :
  all_consistent d → in_stock_consistent p →
  all_consistent (mk_db (<[pid := p]> (products d)) (orders d) (order_items d)).
Proof.
  intros Hd Hp pid' p'. simpl. rewrite lookup_insert.
  case_decide; [by intros [= <-] | apply Hd].
Qed.

(** [decrement_stock] keeps [in_stock] in step with [stock_quantity],
    whatever it returns. *)
Lemma decrement_stock_consistent pid q d r d' :
  decrement_stock pid q d = (r, d') → all_consistent d → all_consistent d'.
Proof.
  unfold decrement_stock, update_product.
  destruct (products d !! pid) as [p|] eqn:Hp; simpl; [|by intros [= _ <-]].
  case_match; [by intros [= _ <-]|].
  destruct (set_stock_minus q p) as [p'|e] eqn:Hset; intros [= _ <-]; [|done].
  intros Hd. apply all_consistent_insert; [done|].
  by eapply set_stock_minus_consistent.
Qed.

(** POST /products keeps [in_stock] in step with [stock_quantity], whatever
    it answers. *)
Lemma create_product_consistent new_id b d :
  all_consistent d → all_consistent (create_product new_id b d).2.
Proof.
  intros Hd. unfold create_product.
  repeat case_match; simpl; try done.
  by apply all_consistent_insert.
Qed.

Lemma patch_product_consistent pid b d :
  all_consistent d → all_consistent (patch_product pid b d).2.
Proof.
  intros Hd. unfold patch_product.
  repeat case_match; simpl; try done.
  by apply all_consistent_insert.
Qed.

Lemma delete_product_consistent pid d :
  all_consistent d → all_consistent (delete_product pid d).2.
Proof.
  intros Hd. unfold delete_product. case_match; simpl; [|done].
  intros pid' p'. simpl. rewrite lookup_delete.
  case_decide; [done | apply Hd].
Qed.

(** ** [decrement_stock] *)

(** C5, as stated, fails: a product at the top of the INTEGER range and the
    quantity [-1] (not less than the stock) make the UPDATE raise
    "integer out of range" instead of returning true. *)
Lemma decrement_stock_contract_fails_on_overflow :
  ¬ decrementStock_contract db_max_stock 1%N (-1).
Proof.
  intros H.
  destruct (H _ eq_refl) as [_ H2].
  destruct H2 as (d' & p' & Heq & _); [vm_compute; discriminate|].
  vm_compute in Heq. discriminate.
Qed.

(** C5 (amended): on an existing product, [decrement_stock] returns false and
    changes nothing when the stock is less than the quantity; otherwise it
    returns true, takes the quantity off the stock and recomputes [in_stock],
    provided the new stock fits INTEGER, which it does for every quantity
    that is not negative; beyond the range it raises and changes nothing. *)
Theorem decrement_stock_soft_failure d pid q p :
  products d !! pid = Some p →
  int4 (Product.stock_quantity p) = true →
  (Product.stock_quantity p < q → decrement_stock pid q d = (Ok false, d)) ∧
  (q ≤ Product.stock_quantity p → Product.stock_quantity p - q ≤ int4_max →
     decrement_stock pid q d = (Ok true, decremented pid q p d)) ∧
  (q ≤ Product.stock_quantity p → int4_max < Product.stock_quantity p - q →
     decrement_stock pid q d = (Raise numeric_value_out_of_range, d)) ∧
  (0 ≤ q → Product.stock_quantity p - q ≤ int4_max).
Proof.
  intros Hp Hs. apply int4_spec in Hs. unfold int4_min in Hs.
  unfold decrement_stock, update_product, set_stock_minus. rewrite Hp. simpl.
  repeat split.
  - intros Hlt. apply Z.ltb_lt in Hlt. by rewrite Hlt.
  - intros Hle Hfit. apply Z.ltb_ge in Hle as Hle'. rewrite Hle'.
    assert (int4 (Product.stock_quantity p - q) = true) as ->; [|done].
    apply int4_spec. unfold int4_min. lia.
  - intros Hle Hbig. apply Z.ltb_ge in Hle as Hle'. rewrite Hle'.
    assert (int4 (Product.stock_quantity p - q) = false) as ->; [|done].
    apply int4_false. lia.
  - lia.
Qed.

Lemma decrement_stock_soft_failure_witness :
  decrement_stock 1%N 2 (mk_db {[ 1%N := Product.mk "Sneaker" 1999 true 5 ]} [] [])
  = (Ok true, mk_db {[ 1%N := Product.mk "Sneaker" 1999 true 3 ]} [] []).
Proof.
  pose proof (decrement_stock_soft_failure
                (mk_db {[ 1%N := Product.mk "Sneaker" 1999 true 5 ]} [] [])
                1%N 2 (Product.mk "Sneaker" 1999 true 5) eq_refl eq_refl)
    as (_ & H & _).
  rewrite H; [| simpl; lia | unfold int4_max; simpl; lia].
  unfold decremented. simpl. by rewrite insert_singleton_eq.
Defined.

(** C10: on a product id that is not in [products], [decrement_stock]
    returns false, raises nothing and leaves every table as it was. *)
Theorem decrement_stock_unknown_product d pid q :
  products d !! pid = None → decrement_stock pid q d = (Ok false, d).
Proof.
  intros Hp. unfold decrement_stock. by rewrite Hp.
Qed.

Lemma decrement_stock_unknown_product_witness :
  decrement_stock 2%N 1 db_max_stock = (Ok false, db_max_stock).
Proof.
  apply (decrement_stock_unknown_product db_max_stock 2%N 1). reflexivity.
Defined.

(** ** [restore_stock] *)

(** C6: [restore_stock] writes [in_stock = true] whatever the new stock is,
    so that the product is left inconsistent whenever the new stock is not
    positive. *)
Theorem restore_stock_sets_in_stock_true d pid q p :
  products d !! pid = Some p →
  int4 (Product.stock_quantity p + q) = true →
  let p' := Product.mk (Product.name p) (Product.price p) true
              (Product.stock_quantity p + q) in
  restore_stock pid q d
  = (Ok tt, mk_db (<[pid := p']> (products d)) (orders d) (order_items d))
  ∧ (Product.stock_quantity p + q ≤ 0 → ¬ in_stock_consistent p').
Proof.
  intros Hp Hfit p'. unfold restore_stock, update_product, set_stock_plus.
  rewrite Hp, Hfit. split; [done|].
  intros Hle. unfold in_stock_consistent, p'. simpl.
  assert ((Product.stock_quantity p + q >? 0) = false) as ->; [|done].
  rewrite Z.gtb_ltb. apply Z.ltb_ge. lia.
Qed.

Lemma restore_stock_sets_in_stock_true_witness :
  restore_stock 1%N 0 db_sold_out
  = (Ok tt, mk_db {[ 1%N := Product.mk "Sneaker" 1999 true 0 ]} [] [])
  ∧ ¬ in_stock_consistent (Product.mk "Sneaker" 1999 true 0).
Proof.
  destruct (restore_stock_sets_in_stock_true db_sold_out 1%N 0
              (Product.mk "Sneaker" 1999 false 0) eq_refl eq_refl) as [H1 H2].
  split.
  - rewrite H1. simpl. by rewrite insert_singleton_eq.
  - apply H2. simpl. lia.
Defined.

(** C3: the invariant does not survive [restore_stock]: every row of
    [db_sold_out] is consistent, and restoring a quantity of 0 leaves its
    product with no stock and [in_stock = true]. *)
Theorem restore_stock_breaks_in_stock_consistency :
  all_consistent db_sold_out ∧
  ∃ d' p', restore_stock 1%N 0 db_sold_out = (Ok tt, d') ∧
    products d' !! 1%N = Some p' ∧
    Product.stock_quantity p' = 0 ∧ Product.in_stock p' = true ∧
    ¬ in_stock_consistent p'.
Proof.
  split.
  - intros pid p. unfold db_sold_out. simpl.
    rewrite lookup_singleton. case_decide; [|done]. by intros [= <-].
  - eexists _, _. split; [reflexivity|]. simpl.
    rewrite lookup_insert_eq. repeat split. unfold in_stock_consistent. simpl. done.
Qed.

(** ** Order items under product edits and deletions *)

(** C7, as stated, fails on deletion: the row of the order that refers to
    the deleted product is rewritten, its [product_id] becoming NULL. *)
Lemma delete_product_changes_order_items :
  order_items (delete_product 1%N db_one_order).2 ≠ order_items db_one_order.
Proof. vm_compute. discriminate. Qed.

Lemma on_delete_set_null_snapshot pid i :
  same_snapshot i (on_delete_set_null pid i).
Proof.
  unfold on_delete_set_null, same_snapshot. case_decide; simpl; done.
Qed.

(** C7 (amended): an edit of a product leaves every [order_items] row as it
    was; a deletion of a product keeps the rows, in order, with every field
    as it was but [product_id], which becomes NULL in the rows that referred
    to the deleted product and stays as it was in the others. *)
Theorem order_items_snapshot_kept (d : db) (pid : uuid) (b : ProductBody.t) :
  order_items (patch_product pid b d).2 = order_items d ∧
  length (order_items (delete_product pid d).2) = length (order_items d) ∧
  ∀ (n : nat) (i : OrderItem.t), order_items d !! n = Some i →
    ∃ i', order_items (delete_product pid d).2 !! n = Some i' ∧
      same_snapshot i i' ∧
      OrderItem.product_id i' =
        (if decide (OrderItem.product_id i = Some pid)
         then (match products d !! pid with Some _ => None | None => Some pid end)
         else OrderItem.product_id i).
Proof.
  split; [|split].
  - unfold patch_product. repeat case_match; done.
  - unfold delete_product. case_match; simpl; [|done]. by rewrite length_fmap.
  - intros n i Hi. unfold delete_product.
    destruct (products d !! pid) as [p|] eqn:Hp; simpl.
    + exists (on_delete_set_null pid i). split.
      * by rewrite list_lookup_fmap, Hi.
      * split; [apply on_delete_set_null_snapshot|].
        unfold on_delete_set_null. by case_decide.
    + exists i. split; [done|]. split; [by repeat split|].
      by case_decide.
Qed.

(** ** Running a handler: the equations of the combinators *)

Section Run.
Variable env : nat → choice.

Lemma run_prog_bind {A B : Type} (p : prog A) (f : A → prog B) d s :
  run env (prog_bind f p) d s =
  match run env p d s with
  | (Normal a, d', s') => run env (f a) d' s'
  | (Returned, d', s') => (Returned, d', s')
  | (Thrown e, d', s') => (Thrown e, d', s')
  end.
Proof.
  revert d s.
  induction p as [a|e| |R c k IH]; intros d s; simpl; try done.
  destruct (exec (env (calls s)) c d s) as [[r d1] s1]. apply IH.
Qed.

Lemma run_bind {A B : Type} (p : prog A) (f : A → prog B) d s :
  run env (p ≫= f) d s =
  match run env p d s with
  | (Normal a, d', s') => run env (f a) d' s'
  | (Returned, d', s') => (Returned, d', s')
  | (Thrown e, d', s') => (Thrown e, d', s')
  end.
Proof. apply run_prog_bind. Qed.

Lemma run_catch {A : Type} (p : prog A) (h : error → prog A) d s :
  run env (catch p h) d s =
  match run env p d s with
  | (Thrown e, d', s') => run env (h e) d' s'
  | r => r
  end.
Proof.
  revert d s.
  induction p as [a|e| |R c k IH]; intros d s; simpl; try done.
  destruct (exec (env (calls s)) c d s) as [[r d1] s1]. apply IH.
Qed.

Lemma run_finally {A : Type} (p : prog A) (fin : prog unit) d s :
  run env (finally p fin) d s =
  match run env p d s with
  | (c, d', s') =>
      match run env fin d' s' with
      | (Normal _, d'', s'') => (c, d'', s'')
      | (Returned, d'', s'') => (Returned, d'', s'')
      | (Thrown e, d'', s'') => (Thrown e, d'', s'')
      end
  end.
Proof.
  revert d s.
  induction p as [a|e| |R c k IH]; intros d s; simpl.
  - rewrite run_bind. by destruct (run env fin d s) as [[[]]].
  - rewrite run_bind. by destruct (run env fin d s) as [[[]]].
  - rewrite run_bind. by destruct (run env fin d s) as [[[]]].
  - destruct (exec (env (calls s)) c d s) as [[r d1] s1]. apply IH.
Qed.

Lemma run_await {R : Type} (c : eff R) d s :
  run env (await c) d s =
  match exec (env (calls s)) c d s with
  | (Ok v, d', s') => (Normal v, d', s')
  | (Raise e, d', s') => (Thrown e, d', s')
  end.
Proof.
  unfold await. simpl.
  by destruct (exec (env (calls s)) c d s) as [[[v|e] d1] s1].
Qed.

(** An invariant of the calls a handler is made of is an invariant of its
    runs. *)
Lemma run_only {A : Type} (P : ∀ R, eff R → Prop) (I : db → session → Prop)
    (p : prog A) :
  (∀ R (c : eff R) ch d s, P R c → I d s →
     I (exec ch c d s).1.2 (exec ch c d s).2) →
  only P p → ∀ d s, I d s → I (run env p d s).1.2 (run env p d s).2.
Proof.
  intros Hstep. induction p as [a|e| |R c k IH]; intros Hp d s HI; simpl; try done.
  destruct Hp as [Hc Hk].
  specialize (Hstep R c (env (calls s)) d s Hc HI).
  destruct (exec (env (calls s)) c d s) as [[r d1] s1]. by apply IH.
Qed.
End Run.

(** ** Which calls the order handler makes *)

Section Only.
Context (P : ∀ R, eff R → Prop).

Lemma only_bind {A B : Type} (p : prog A) (f : A → prog B) :
  only P p → (∀ a, only P (f a)) → only P (p ≫= f).
Proof.
  unfold mbind, prog_mbind. intros Hp Hf.
  induction p as [a|e| |R c k IH]; simpl in *; try done.
  destruct Hp as [Hc Hk]. split; [done|]. intros r. by apply IH.
Qed.

Lemma only_catch {A : Type} (p : prog A) (h : error → prog A) :
  only P p → (∀ e, only P (h e)) → only P (catch p h).
Proof.
  intros Hp Hh.
  induction p as [a|e| |R c k IH]; simpl in *; try done.
  destruct Hp as [Hc Hk]. split; [done|]. intros r. by apply IH.
Qed.

Lemma only_await {R : Type} (c : eff R) : P R c → only P (await c).
Proof. intros Hc. split; [done|]. by intros [v|e]. Qed.

Lemma only_for_of {A : Type} (l : list A) (body : A → prog unit) :
  (∀ x, only P (body x)) → only P (for_of l body).
Proof.
  intros Hb. induction l as [|x l IH]; simpl; [done|].
  by apply only_bind.
Qed.
End Only.

Lemma place_order_try_never_releases req :
  only not_release (catch (place_order_try req) place_order_catch).
Proof.
  apply only_catch.
  - unfold place_order_try. apply only_bind.
    { unfold validate. case_match; [done|].
      apply only_bind; [by apply only_await | done]. }
    intros ok. destruct ok; cbn [negb]; [|done].
    repeat (apply only_bind; [| intros ?]); try (by apply only_await).
    + apply only_for_of. intros item. unfold reserve.
      apply only_bind; [by apply only_await|]. intros rows.
      destruct rows as [|product rows].
      * repeat (apply only_bind; [| intros ?]); try (by apply only_await). done.
      * case_match; [|by apply only_await].
        repeat (apply only_bind; [| intros ?]); try (by apply only_await). done.
    + apply only_for_of. intros item. by apply only_await.
  - intros e. unfold place_order_catch.
    apply only_bind; [by apply only_await|]. intros c.
    apply only_bind; [|intros ?; by apply only_await].
    destruct c; [by apply only_await | done].
Qed.

Lemma exec_not_release_released ch {R} (c : eff R) d s :
  not_release R c → released (exec ch c d s).2 = released s.
Proof.
  destruct c; simpl; try done; intros _.
  - by destruct (fault ch).
  - destruct (client s) as [t|]; [|done].
    destruct (fault ch); [done|].
    by destruct (exec_query q (gen_random_uuid ch) t d) as [[r t'] d'].
Qed.

(** C9: at the end of every run of the order handler, whatever its path,
    the client has been released exactly once if one was acquired, and
    nothing was released if none was. *)
Theorem client_released_on_every_path env req d :
  released (handle env req d).2
  = match client (handle env req d).2 with Some _ => 1%nat | None => 0%nat end.
Proof.
  unfold handle, place_order, try_catch_finally. rewrite run_finally.
  pose proof (run_only env not_release (λ _ s, released s = 0%nat)
                (catch (place_order_try req) place_order_catch)) as Hinv.
  simpl in Hinv.
  specialize (Hinv (λ R c ch d s Hc Hs,
                      eq_trans (exec_not_release_released ch c d s Hc) Hs)
                (place_order_try_never_releases req) d init_session eq_refl).
  destruct (run env (catch (place_order_try req) place_order_catch) d init_session)
    as [[c1 d1] s1]. simpl in Hinv.
  unfold place_order_finally. rewrite run_bind, run_await. simpl.
  destruct (client s1) as [t|] eqn:Hc; simpl.
  - by rewrite Hc, Hinv.
  - by rewrite Hc.
Qed.

(** ** The transaction of the order handler, step by step *)

Lemma alter_as_insert {A : Type} (f : A → A) (m : gmap uuid A) i x :
  m !! i = Some x → alter f i m = <[i := f x]> m.
Proof.
  intros Hx. apply map_eq. intros j.
  rewrite lookup_alter, lookup_insert.
  case_decide; [subst; by rewrite Hx | done].
Qed.

Lemma apply_no_writes d : apply_writes no_writes d = d.
Proof.
  destruct d as [ps os ois]. unfold apply_writes, no_writes. simpl.
  by rewrite (left_id_L ∅ (∪)), !app_nil_r.
Qed.

Section Steps.
Variable env : nat → choice.

(** One turn of the first loop, inside a transaction with writes [w]. *)
Lemma run_reserve i w d s :
  client s = Some (InTxn w) → sent s = None →
  ∃ c s', run env (reserve i) d s = (c, d, s') ∧
    match c with
    | Normal _ =>
        ∃ p, products (apply_writes w d) !! Item.productId i = Some p ∧
          Item.quantity i ≤ Product.stock_quantity p ∧
          sent s' = None ∧
          ∃ w', client s' = Some (InTxn w') ∧
            orders w' = orders w ∧ order_items w' = order_items w ∧
            products (apply_writes w' d)
            = take_stock (products (apply_writes w d)) i
    | Returned => ∃ b, sent s' = Some (mk_response 400 b)
    | Thrown _ => sent s' = None
    end.
Proof.
  intros Hc Hs. unfold reserve.
  rewrite run_bind, run_await. simpl. rewrite Hc.
  destruct (fault (env (calls s))) as [e|]; [by eexists _, _|].
  simpl.
  destruct ((products w ∪ products d) !! Item.productId i) as [p|] eqn:Hp.
  - simpl. destruct (Product.stock_quantity p <? Item.quantity i) eqn:Hlt; simpl.
    + destruct (fault (env (S (calls s)))) as [e|]; [by eexists _, _|].
      simpl. eexists _, _. split; [done|]. by eexists.
    + destruct (fault (env (S (calls s)))) as [e|]; [by eexists _, _|].
      simpl. rewrite Hp.
      destruct (set_stock_minus (Item.quantity i) p) as [p'|e] eqn:Hset;
        [|by eexists _, _].
      eexists _, _. split; [done|]. exists p.
      apply Z.ltb_ge in Hlt. repeat split; [done..|].
      eexists. repeat split; simpl.
      apply set_stock_minus_Ok in Hset as [-> _].
      unfold take_stock. rewrite (alter_as_insert _ _ _ _ Hp).
      by rewrite insert_union_l.
  - simpl.
    destruct (fault (env (S (calls s)))) as [e|]; [by eexists _, _|].
    simpl. eexists _, _. split; [done|]. by eexists.
Qed.

(** The first loop. *)
Lemma run_reserve_loop items : ∀ w d s,
  client s = Some (InTxn w) → sent s = None →
  ∃ c s', run env (for_of items reserve) d s = (c, d, s') ∧
    match c with
    | Normal _ =>
        reservable items (products (apply_writes w d)) = true ∧
        sent s' = None ∧
        ∃ w', client s' = Some (InTxn w') ∧
          orders w' = orders w ∧ order_items w' = order_items w ∧
          products (apply_writes w' d)
          = decrement_all items (products (apply_writes w d))
    | Returned => ∃ b, sent s' = Some (mk_response 400 b)
    | Thrown _ => sent s' = None
    end.
Proof.
  induction items as [|i items IH]; intros w d s Hc Hs.
  - eexists _, _. split; [done|]. split; [done|]. split; [done|]. by exists w.
  - cbn [for_of]. rewrite run_bind.
    destruct (run_reserve i w d s Hc Hs) as (c & s1 & -> & Hpost).
    destruct c as [[]| |e]; [|by eexists _, _..].
    destruct Hpost as (p & Hp & Hq & Hs1 & w1 & Hc1 & Ho1 & Hi1 & Hps1).
    destruct (IH w1 d s1 Hc1 Hs1) as (c & s2 & -> & Hpost).
    eexists _, _. split; [done|].
    destruct c as [[]| |e]; [|done..].
    destruct Hpost as (Hres & Hs2 & w2 & Hc2 & Ho2 & Hi2 & Hps2).
    split; [|split; [done|]].
    + cbn [reservable]. rewrite Hp. apply andb_true_iff. split; [by apply Z.leb_le|].
      by rewrite <- Hps1.
    + exists w2. repeat split; [done|congruence..|].
      rewrite Hps2, Hps1. done.
Qed.

(** The second loop never returns early. *)
Lemma run_add_items o items : ∀ w d s,
  client s = Some (InTxn w) → sent s = None →
  ∃ c s', run env (for_of items (add_item o)) d s = (c, d, s') ∧
    sent s' = None ∧
    match c with
    | Normal _ =>
        ∃ w', client s' = Some (InTxn w') ∧
          products w' = products w ∧ orders w' = orders w ∧
          ∃ ids, length ids = length items ∧
            order_items w' = order_items w ++ zip_with (item_row o) ids items
    | Returned => False
    | Thrown _ => True
    end.
Proof.
  induction items as [|i items IH]; intros w d s Hc Hs.
  - eexists _, _. split; [done|]. split; [done|]. exists w.
    repeat split; [done|]. exists []. by rewrite app_nil_r.
  - cbn [for_of]. rewrite run_bind. unfold add_item at 1.
    rewrite run_await. simpl. rewrite Hc.
    destruct (fault (env (calls s))) as [e|]; [by eexists _, _|].
    simpl.
    destruct (int4 (Item.quantity i) && decimal_10_2 (round_2 (Item.price i)));
      [|by eexists _, _].
    match goal with
    | |- context [run env _ d ?s1] =>
        destruct (IH (mk_db (products w) (orders w)
                        (order_items w ++ [item_row o (gen_random_uuid (env (calls s))) i]))
                    d s1 eq_refl Hs) as (c & s2 & -> & Hs2 & Hpost)
    end.
    eexists _, _. split; [done|]. split; [done|].
    destruct c as [[]| |e]; [|done..].
    destruct Hpost as (w2 & Hc2 & Hp2 & Ho2 & ids & Hlen & Hi2).
    exists w2. repeat split; [done..|].
    exists (gen_random_uuid (env (calls s)) :: ids). split; [simpl; by rewrite Hlen|].
    rewrite Hi2. simpl. by rewrite <- app_assoc.
Qed.

Lemma run_validate req d s :
  run env (validate req) d s =
  match validation_errors req with
  | [] => (Normal true, d, s)
  | msg :: _ =>
      (Normal false, d,
       mk_session (client s) (released s)
         (Some (mk_response 400 (json_error msg))) (calls s))
  end.
Proof. unfold validate. by destruct (validation_errors req). Qed.

(** The [try] block, from the first call to the response. *)
Lemma run_place_order_try req d :
  ∃ c d' s', run env (place_order_try req) d init_session = (c, d', s') ∧
    match c with
    | Normal _ =>
        ∃ o, sent s' = Some (mk_response 201 (json_order "Order placed successfully" o)) ∧
          persisted req o d d' ∧
          validation_errors req = [] ∧
          reservable (Request.items req) (products d) = true
    | Returned => d' = d ∧ ∃ b, sent s' = Some (mk_response 400 b)
    | Thrown _ => d' = d ∧ sent s' = None
    end.
Proof.
  unfold place_order_try. rewrite run_bind, run_validate.
  destruct (validation_errors req) as [|msg msgs] eqn:Hval; cbn [negb];
    [|by eexists _, _, _; split; [done|]; split; [|eexists]].
  simpl.
  destruct (fault (env 0%nat)) as [e|]; [by eexists _, _, _|].
  simpl.
  destruct (fault (env 1%nat)) as [e|]; [by eexists _, _, _|].
  simpl. rewrite run_prog_bind.
  match goal with
  | |- context [run env (for_of _ reserve) d ?s1] =>
      destruct (run_reserve_loop (Request.items req) no_writes d s1 eq_refl eq_refl)
        as (c & s2 & -> & Hpost)
  end.
  destruct c as [[]| |e]; [|by eexists _, _, _..].
  destruct Hpost as (Hres & Hs2 & w2 & Hc2 & Ho2 & Hi2 & Hps2).
  rewrite apply_no_writes in Hres, Hps2.
  simpl. rewrite Hc2.
  destruct (fault (env (calls s2))) as [e|]; [by eexists _, _, _|].
  simpl.
  destruct (decimal_10_2 (round_2 (Request.total req))); [|by eexists _, _, _].
  unfold prog_mbind, mbind. simpl. rewrite run_prog_bind.
  match goal with
  | |- context [run env (for_of _ (add_item ?o)) d ?s3] =>
      destruct (run_add_items o (Request.items req)
                  (mk_db (products w2) (orders w2 ++ [o]) (order_items w2))
                  d s3 eq_refl Hs2)
        as (c & s4 & -> & Hs4 & Hpost);
      set (order := o) in *
  end.
  destruct c as [[]| |e]; [|done|by eexists _, _, _].
  destruct Hpost as (w4 & Hc4 & Hp4 & Ho4 & ids & Hlen & Hi4).
  simpl in Hp4, Ho4, Hi4.
  simpl. rewrite Hc4.
  destruct (fault (env (calls s4))) as [e|]; [by eexists _, _, _|].
  simpl. eexists _, _, _. split; [done|]. exists order.
  split; [done|]. split; [|done].
  unfold persisted. simpl. rewrite Hp4, Ho4, Hi4, Ho2, Hi2. simpl.
  repeat split; [done | by eexists | by exists ids].
Qed.

Lemma run_place_order_catch e d s :
  ∃ c s', run env (place_order_catch e) d s = (c, d, s') ∧
    (sent s' = sent s ∨ sent s' = Some (errorHandler e)).
Proof.
  unfold place_order_catch. rewrite run_bind, run_await. simpl.
  destruct (client s) as [t|] eqn:Hc; simpl.
  - rewrite Hc. destruct (fault (env (calls s))) as [e'|]; simpl.
    + eexists _, _. split; [done|]. by left.
    + eexists _, _. split; [done|]. by right.
  - eexists _, _. split; [done|]. by right.
Qed.

Lemma run_place_order_finally d s :
  ∃ s', run env place_order_finally d s = (Normal tt, d, s') ∧ sent s' = sent s.
Proof.
  unfold place_order_finally. rewrite run_bind, run_await. simpl.
  destruct (client s) as [t|]; simpl; by eexists.
Qed.

Lemma errorHandler_not_created e : status (errorHandler e) ≠ 201.
Proof. by destruct e. Qed.

(** Every run of the handler either answers 201 with the whole order
    persisted, or answers otherwise with the tables as they were. *)
Lemma handle_cases req d :
  ∃ c d' s', handle env req d = (c, d', s') ∧
    ((∃ o, sent s' = Some (mk_response 201 (json_order "Order placed successfully" o)) ∧
        persisted req o d d' ∧
        validation_errors req = [] ∧
        reservable (Request.items req) (products d) = true)
     ∨ (d' = d ∧ ¬ succeeded s')).
Proof.
  unfold handle, place_order, try_catch_finally.
  rewrite run_finally, run_catch.
  destruct (run_place_order_try req d) as (c & d1 & s1 & -> & Hpost).
  destruct c as [[]| |e].
  - destruct (run_place_order_finally d1 s1) as (s2 & -> & Hs2).
    eexists _, _, _. split; [done|]. left.
    destruct Hpost as (o & Hs1 & Hrest). exists o. by rewrite Hs2.
  - destruct (run_place_order_finally d1 s1) as (s2 & -> & Hs2).
    eexists _, _, _. split; [done|]. right.
    destruct Hpost as (-> & b & Hs1). split; [done|].
    unfold succeeded. by rewrite Hs2, Hs1.
  - destruct Hpost as (-> & Hs1).
    destruct (run_place_order_catch e d s1) as (c & s2 & -> & Hs2).
    destruct (run_place_order_finally d s2) as (s3 & -> & Hs3).
    assert (¬ succeeded s3) as Hno.
    { unfold succeeded. rewrite Hs3.
      destruct Hs2 as [-> | ->]; [by rewrite Hs1|].
      simpl. intros [= H]. by apply (errorHandler_not_created e). }
    destruct c as [[]| |e']; eexists _, _, _; (split; [done|]); by right.
Qed.
End Steps.

(** ** The order handler as a whole *)

Lemma take_stock_consistent ps i :
  (∀ pid p, ps !! pid = Some p → in_stock_consistent p) →
  ∀ pid p, take_stock ps i !! pid = Some p → in_stock_consistent p.
Proof.
  intros Hps pid p. unfold take_stock. rewrite lookup_alter.
  case_decide as Heq; [subst pid|apply Hps].
  destruct (ps !! Item.productId i); simpl; [|done]. by intros [= <-].
Qed.

Lemma decrement_all_consistent items : ∀ ps,
  (∀ pid p, ps !! pid = Some p → in_stock_consistent p) →
  ∀ pid p, decrement_all items ps !! pid = Some p → in_stock_consistent p.
Proof.
  induction items as [|i items IH]; intros ps Hps; [done|].
  apply IH. by apply take_stock_consistent.
Qed.

(** Placing an order keeps [in_stock] in step with [stock_quantity]. *)
Lemma handle_consistent env req d :
  all_consistent d → all_consistent (handle env req d).1.2.
Proof.
  intros Hd.
  destruct (handle_cases env req d) as (c & d' & s' & -> & [Hok | [-> _]]); [|done].
  destruct Hok as (o & _ & (Hps & _) & _). simpl.
  unfold all_consistent. rewrite Hps. by apply decrement_all_consistent.
Qed.

(** C1: a run of the order handler, whatever the request and whatever fails
    on the way, ends in one of two ways: it answers 201, no line item has
    failed, and the tables are the old ones with every stock decrement, the
    order row and one [order_items] row per line item; or it does not answer
    201 and the tables are exactly the old ones. *)
Theorem place_order_all_or_nothing env req d :
  (succeeded (handle env req d).2 ∧
   reservable (Request.items req) (products d) = true ∧
   ∃ o, persisted req o d (handle env req d).1.2)
  ∨ (¬ succeeded (handle env req d).2 ∧ (handle env req d).1.2 = d).
Proof.
  destruct (handle_cases env req d) as (c & d' & s' & -> & [Hok | [-> Hno]]); simpl.
  - left. destruct Hok as (o & Hs & Hp & _ & Hres).
    split; [unfold succeeded; by rewrite Hs|]. split; [done|]. by exists o.
  - by right.
Qed.

(** *** The total of an order *)

Lemma pow10_pos (s : nat) : 0 < 10 ^ Z.of_nat s.
Proof. apply Z.pow_pos_nonneg; lia. Qed.

(** Rounding to the nearest of a fraction that is not negative. *)
Lemma half_up_near (a D : Z) :
  0 ≤ a → 0 < D → 2 * Z.abs (a - (2 * a + D) / (2 * D) * D) ≤ D.
Proof.
  intros Ha HD.
  pose proof (Z.div_mod (2 * a + D) (2 * D) ltac:(lia)) as Hdm.
  pose proof (Z.mod_pos_bound (2 * a + D) (2 * D) ltac:(lia)) as Hm.
  set (q := (2 * a + D) / (2 * D)) in *.
  set (r := (2 * a + D) mod (2 * D)) in *.
  assert (2 * (a - q * D) = r - D) as Heq by lia.
  lia.
Qed.

(** What the column keeps is within half a hundredth of what it is given. *)
Lemma round_2_near (n : Number.t) :
  2 * Z.abs (100 * Number.unscaled n - round_2 n * 10 ^ Z.of_nat (Number.scale n))
  ≤ 10 ^ Z.of_nat (Number.scale n).
Proof.
  unfold round_2. pose proof (pow10_pos (Number.scale n)) as HD.
  set (D := 10 ^ Z.of_nat (Number.scale n)) in *.
  set (a := 100 * Number.unscaled n).
  destruct (Z.lt_trichotomy a 0) as [Hneg | [-> | Hpos]].
  - rewrite (Z.sgn_neg a), (Z.abs_neq a) by lia.
    pose proof (half_up_near (- a) D ltac:(lia) HD) as H.
    replace (a - -1 * ((2 * - a + D) / (2 * D)) * D)
      with (- (- a - (2 * - a + D) / (2 * D) * D)) by lia.
    by rewrite Z.abs_opp.
  - simpl. lia.
  - rewrite (Z.sgn_pos a), (Z.abs_eq a) by lia.
    pose proof (half_up_near a D ltac:(lia) HD) as H.
    by replace (a - 1 * ((2 * a + D) / (2 * D)) * D)
      with (a - (2 * a + D) / (2 * D) * D) by lia.
Qed.

(** The column keeps a number as it is exactly when the number is a whole
    number of hundredths. *)
Lemma round_2_exact (n : Number.t) :
  Number.eqv (hundredths (round_2 n)) n
  ↔ (10 ^ Z.of_nat (Number.scale n) | 100 * Number.unscaled n).
Proof.
  unfold Number.eqv, hundredths; simpl.
  pose proof (pow10_pos (Number.scale n)) as HD.
  change (10 ^ Z.of_nat 2) with 100.
  split.
  - intros H. exists (round_2 n). lia.
  - intros [k Hk]. enough (round_2 n = k) as -> by lia.
    unfold round_2. rewrite Hk.
    set (D := 10 ^ Z.of_nat (Number.scale n)) in *.
    assert (∀ m, 0 ≤ m → (2 * (m * D) + D) / (2 * D) = m) as Hdiv.
    { intros m Hm. symmetry. apply (Z.div_unique _ _ m D); lia. }
    destruct (Z.lt_trichotomy k 0) as [Hneg | [-> | Hpos]].
    + rewrite (Z.sgn_neg (k * D)), (Z.abs_neq (k * D)) by nia.
      replace (- (k * D)) with (- k * D) by lia. rewrite Hdiv by lia. lia.
    + simpl. lia.
    + rewrite (Z.sgn_pos (k * D)), (Z.abs_eq (k * D)) by nia.
      rewrite Hdiv by lia. lia.
Qed.

(** C8, as stated, fails: an order with the total 0.005 passes the
    validation and is answered 201, and the [DECIMAL(10,2)] column keeps
    0.01, not the total as sent. *)
Lemma order_total_rounded_by_column :
  ¬ total_as_sent env_quiet req_half_cent db_three_sneakers.
Proof.
  intros H. destruct H as (o & Ho & He); [vm_compute; reflexivity|].
  vm_compute in Ho. injection Ho as <-.
  vm_compute in He. discriminate.
Qed.

(** C8 (amended): when the handler answers 201, the order row it has added
    carries the [total] of the request as the column keeps it, whatever the
    line items add up to: rounded to the nearest hundredth, so within half a
    hundredth of the total sent, and equal to it exactly when that is a
    whole number of hundredths. *)
Theorem order_total_is_rounded_client_total env req d :
  succeeded (handle env req d).2 →
  ∃ o, orders (handle env req d).1.2 = orders d ++ [o] ∧
    Order.total o = round_2 (Request.total req) ∧
    2 * Z.abs (100 * Number.unscaled (Request.total req)
               - Order.total o * 10 ^ Z.of_nat (Number.scale (Request.total req)))
    ≤ 10 ^ Z.of_nat (Number.scale (Request.total req)) ∧
    (Number.eqv (hundredths (Order.total o)) (Request.total req)
     ↔ (10 ^ Z.of_nat (Number.scale (Request.total req))
        | 100 * Number.unscaled (Request.total req))) ∧
    sent (handle env req d).2
    = Some (mk_response 201 (json_order "Order placed successfully" o)).
Proof.
  destruct (handle_cases env req d) as (c & d' & s' & -> & [Hok | [-> Hno]]); simpl;
    [|done].
  intros _. destruct Hok as (o & Hs & (_ & Ho & [id ->] & _) & _).
  eexists. split; [done|]. simpl.
  split; [done|]. split; [apply round_2_near|]. split; [apply round_2_exact|done].
Qed.

Lemma order_total_is_rounded_client_total_witness :
  ¬ Number.eqv (items_total (Request.items req_whole_stock))
      (Request.total req_whole_stock) ∧
  ∃ o, orders (handle env_quiet req_whole_stock db_three_sneakers).1.2 = [o] ∧
    Order.total o = 5.
Proof.
  split; [vm_compute; discriminate|].
  destruct (order_total_is_rounded_client_total env_quiet req_whole_stock
              db_three_sneakers) as (o & Ho & Ht & _); [vm_compute; reflexivity|].
  exists o. by split.
Defined.

(** C4: a valid order of one line item that asks for exactly the stock of
    its product, run without faults, is answered 201 and leaves the product
    with no stock and [in_stock = false]. *)
Theorem order_for_whole_stock env req d item p :
  no_faults env →
  Request.items req = [item] →
  validation_errors req = [] →
  products d !! Item.productId item = Some p →
  Item.quantity item = Product.stock_quantity p →
  int4 (Product.stock_quantity p) = true →
  decimal_10_2 (round_2 (Item.price item)) = true →
  decimal_10_2 (round_2 (Request.total req)) = true →
  succeeded (handle env req d).2 ∧
  products (handle env req d).1.2 !! Item.productId item
  = Some (Product.mk (Product.name p) (Product.price p) false 0).
Proof.
  intros Hnf Hitems Hval Hp Hq Hint Hprice Htotal.
  unfold handle, place_order, try_catch_finally, place_order_try.
  rewrite run_finally, run_catch, run_bind, run_validate, Hval, Hitems.
  cbn [negb].
  repeat first
    [ rewrite Hnf | rewrite (left_id_L ∅ (∪)) | rewrite Hp | rewrite Hq
    | rewrite Z.ltb_irrefl | rewrite Z.sub_diag | rewrite Htotal
    | rewrite Hint | rewrite Hprice
    | progress unfold prog_mbind, mbind, set_stock_minus
    | progress simpl ].
  split; [done|]. apply lookup_union_Some_l. by rewrite lookup_insert_eq.
Qed.

Lemma order_for_whole_stock_witness :
  succeeded (handle env_quiet req_whole_stock db_three_sneakers).2 ∧
  products (handle env_quiet req_whole_stock db_three_sneakers).1.2 !! 1%N
  = Some (Product.mk "Sneaker" 1999 false 0).
Proof.
  apply (order_for_whole_stock env_quiet req_whole_stock db_three_sneakers
           (Item.mk 1%N 3 (hundredths 1999) None (Some "Sneaker"))
           (Product.mk "Sneaker" 1999 true 3));
    first [ reflexivity | intros n; reflexivity ].
Defined.

(** ** Two requests at once: what each step keeps *)

Lemma only_finally {A : Type} (P : ∀ R, eff R → Prop) (p : prog A) (fin : prog unit) :
  only P p → only P fin → only P (finally p fin).
Proof.
  intros Hp Hfin.
  induction p as [a|e| |R c k IH]; simpl in *.
  - by apply only_bind.
  - by apply only_bind.
  - by apply only_bind.
  - destruct Hp as [Hc Hk]. split; [done|]. intros r. by apply IH.
Qed.

Lemma only_weaken {A : Type} (P Q : ∀ R, eff R → Prop) (p : prog A) :
  (∀ R c, P R c → Q R c) → only P p → only Q p.
Proof.
  intros HPQ. induction p as [a|e| |R c k IH]; simpl; try done.
  intros [Hc Hk]. split; [by apply HPQ|]. intros r. by apply IH.
Qed.

Lemma harmless_quiet R (c : eff R) : harmless R c → quiet R c.
Proof. by destruct c. Qed.

Lemma place_order_catch_harmless e : only harmless (place_order_catch e).
Proof.
  unfold place_order_catch.
  apply only_bind; [by apply only_await|]. intros c.
  apply only_bind; [|intros ?; by apply only_await].
  destruct c; [by apply only_await | done].
Qed.

Lemma place_order_finally_harmless : only harmless place_order_finally.
Proof.
  unfold place_order_finally.
  apply only_bind; [by apply only_await|]. intros c.
  destruct c; [by apply only_await | done].
Qed.

Lemma guarded_only (P : ∀ R, eff R → Prop) p :
  (∀ R c, harmless R c → P R c) → only P p → only P (guarded p).
Proof.
  intros HP Hp. unfold guarded, try_catch_finally.
  apply only_finally; [apply only_catch; [done|]|].
  - intros e. eapply only_weaken; [exact HP | apply place_order_catch_harmless].
  - eapply only_weaken; [exact HP | apply place_order_finally_harmless].
Qed.

(** What is left after an exception inside the [try] block. *)
Lemma guarded_throw_harmless e : only harmless (guarded (Throw e)).
Proof. by apply guarded_only. Qed.

Lemma guarded_return_harmless : only harmless (guarded Return).
Proof. by apply guarded_only. Qed.

Lemma place_order_valid req :
  validation_errors req = [] → place_order req = code_start req.
Proof.
  intros Hval. unfold place_order, code_start, guarded, place_order_try, validate.
  by rewrite Hval.
Qed.

Lemma place_order_invalid req :
  validation_errors req ≠ [] → only harmless (place_order req).
Proof.
  intros Hval. unfold place_order. apply (guarded_only harmless); [done|].
  unfold place_order_try, validate.
  destruct (validation_errors req) as [|msg msgs]; [done|].
  simpl. split; [done|]. by intros [v|e].
Qed.

(** A quiet call leaves the committed tables alone. *)
Lemma exec_quiet_store ch {R} (c : eff R) d s :
  quiet R c → (exec ch c d s).1.2 = d.
Proof.
  destruct c; simpl; try done.
  destruct q; try done. intros _.
  destruct (client s) as [t|]; [|done]. by destruct (fault ch).
Qed.

(** A harmless call does not make a request succeed. *)
Lemma exec_harmless_sent ch {R} (c : eff R) d s :
  harmless R c → ¬ succeeded s → ¬ succeeded (exec ch c d s).2.
Proof.
  destruct c; simpl; try done.
  - destruct q; try done. intros _.
    destruct (client s) as [t|]; [|done]. by destruct (fault ch).
  - intros Hst _. unfold succeeded. simpl. congruence.
  - intros _ _. unfold succeeded. simpl. intros [= H].
    by apply (errorHandler_not_created err).
Qed.

(** ** Locks of the other request *)

Lemma frame_same i d l : frame i d l d l.
Proof. by intros pid H. Qed.

Lemma frame_unlock i d l : frame i d l d (filter (λ kv, kv.2 ≠ i) l).
Proof.
  intros pid H. split; [|done].
  apply map_lookup_filter_Some. split; [done|]. simpl. by destruct i.
Qed.

Lemma frame_lock i d l pid :
  (∀ j, l !! pid = Some j → j = i) → frame i d l d (<[pid := i]> l).
Proof.
  intros Hfree pid' H. split; [|done].
  rewrite lookup_insert_ne; [done|].
  intros ->. apply Hfree in H. by destruct i.
Qed.

Lemma may_run_lock i {R} (c : eff R) l pid :
  may_run i c l = true → locked_row c = Some pid → ∀ j, l !! pid = Some j → j = i.
Proof.
  unfold may_run. intros Hrun Hrow j Hj. rewrite Hrow, Hj in Hrun.
  by apply bool_decide_eq_true in Hrun.
Qed.

Lemma txn_ok_frame j done w d l d' l' :
  txn_ok j done w d l → frame (negb j) d l d' l' → txn_ok j done w d' l'.
Proof.
  intros Hok Hfr pid. specialize (Hok pid).
  destruct (products w !! pid) as [row|]; [|done].
  destruct Hok as (Hl & Hnn & row0 & Hrow0 & Heq).
  rewrite <- (negb_involutive j) in Hl.
  destruct (Hfr pid Hl) as [Hl' Hd']. rewrite negb_involutive in Hl'.
  split; [done|]. split; [done|]. exists row0. by rewrite Hd'.
Qed.

(** What holds of one request survives the steps of the other. *)
Lemma thread_ok_frame j req ph t d l d' l' :
  thread_ok j req ph t d l → frame (negb j) d l d' l' → thread_ok j req ph t d' l'.
Proof.
  intros Hok Hfr. destruct ph; simpl in *; try done.
  - destruct Hok as (Hc & Hs & Hi & w & Hcl & Htxn).
    repeat split; [done..|]. exists w. split; [done|]. by eapply txn_ok_frame.
  - destruct Hok as (Hc & Hs & Hi & w & Hcl & Htxn & Hl & row & Hrow & Hq).
    repeat split; [done..|]. exists w. split; [done|].
    split; [by eapply txn_ok_frame|].
    rewrite <- (negb_involutive j) in Hl.
    destruct (Hfr _ Hl) as [Hl' Hd']. rewrite negb_involutive in Hl'.
    split; [done|]. exists row. split; [|done].
    simpl in *. rewrite lookup_union in *. by rewrite Hd'.
  - destruct Hok as (Hc & Hs & w & Hcl & Htxn).
    repeat split; [done..|]. exists w. split; [done|]. by eapply txn_ok_frame.
Qed.

(** ** The next call at each place, and what is left after it *)

Lemma code_start_next req :
  ∃ k, code_start req = Call getClient k ∧
    (∀ v, k (Ok v) = code_begun req) ∧
    (∀ e, k (Raise e) = guarded (Throw e)).
Proof. eexists. split; [reflexivity|]. by split. Qed.

Lemma code_begun_next req :
  ∃ k, code_begun req = Call (client_query BEGIN) k ∧
    (∀ v, k (Ok v) = code_reserving req (Request.items req)) ∧
    (∀ e, k (Raise e) = guarded (Throw e)).
Proof. eexists. split; [reflexivity|]. by split. Qed.

Lemma code_reserving_next req item rest :
  ∃ k, code_reserving req (item :: rest)
       = Call (client_query (statement (select_product_for_update (Item.productId item)))) k ∧
    only harmless (k (Ok [])) ∧
    (∀ row rows,
       (StockRow.stock_quantity row <? Item.quantity item) = true →
       only harmless (k (Ok (row :: rows)))) ∧
    (∀ row rows,
       (StockRow.stock_quantity row <? Item.quantity item) = false →
       k (Ok (row :: rows)) = code_checked req item rest) ∧
    (∀ e, k (Raise e) = guarded (Throw e)).
Proof.
  eexists. split; [reflexivity|]. split; [|split; [|split]].
  - simpl. split; [done|]. intros [v|e]; simpl.
    + split; [done|]. intros [v'|e'];
        [exact guarded_return_harmless | exact (guarded_throw_harmless e')].
    + exact (guarded_throw_harmless e).
  - intros row rows Hlt. simpl. rewrite Hlt. simpl.
    split; [done|]. intros [v|e]; simpl.
    + split; [done|]. intros [v'|e'];
        [exact guarded_return_harmless | exact (guarded_throw_harmless e')].
    + exact (guarded_throw_harmless e).
  - intros row rows Hlt. simpl. by rewrite Hlt.
  - done.
Qed.

Lemma code_checked_next req item rest :
  ∃ k, code_checked req item rest
       = Call (client_query (statement
                 (update_product_stock (Item.quantity item) (Item.productId item)))) k ∧
    (∀ v, k (Ok v) = code_reserving req rest) ∧
    (∀ e, k (Raise e) = guarded (Throw e)).
Proof. eexists. split; [reflexivity|]. by split. Qed.

Lemma code_reserved_next req :
  ∃ k, code_reserving req []
       = Call (client_query (statement
                 (insert_order (Request.userId req) (Request.total req)
                    (default "null" (Request.shippingAddress req))))) k ∧
    (∀ order, k (Ok order) = code_adding order (Request.items req)) ∧
    (∀ e, k (Raise e) = guarded (Throw e)).
Proof. eexists. split; [reflexivity|]. by split. Qed.

Lemma code_adding_next order item rest :
  ∃ k, code_adding order (item :: rest)
       = Call (client_query (statement
                 (insert_order_item (Order.id order) (Item.productId item)
                    (or_else (Item.product_name item) "Product")
                    (Item.quantity item) (or_null (Item.size item))
                    (Item.price item)))) k ∧
    (∀ v, k (Ok v) = code_adding order rest) ∧
    (∀ e, k (Raise e) = guarded (Throw e)).
Proof. eexists. split; [reflexivity|]. by split. Qed.

Lemma code_added_next order :
  ∃ k, code_adding order [] = Call (client_query COMMIT) k ∧
    (∀ v, only quiet (k (Ok v))) ∧
    (∀ e, k (Raise e) = guarded (Throw e)).
Proof.
  eexists. split; [reflexivity|]. split; [|done].
  intros v. apply (guarded_only quiet); [apply harmless_quiet|]. by apply only_await.
Qed.

(** ** Putting a step back into the invariant *)

Lemma inv_assemble d0 req w ph i ph' c' s' d' l' :
  (∀ j, thread_ok j (req j) (ph j) (thr w j) (store w) (locks w)) →
  frame i (store w) (locks w) d' l' →
  thread_ok i (req i) ph' (mk_thread c' s') d' l' →
  stock_nonneg (products d') →
  accounted d0 req (λ j, if bool_decide (j = i) then ph' else ph j) d' →
  inv d0 req (mk_world d' l' (set_thread i (mk_thread c' s') (thr w))).
Proof.
  intros Hthr Hfr Hi Hnn Hacc.
  exists (λ j, if bool_decide (j = i) then ph' else ph j).
  split; [|by split]. intros j. simpl. unfold set_thread.
  case_bool_decide as Hj; [by subst j|].
  eapply thread_ok_frame; [apply Hthr|].
  by replace (negb j) with i by (by destruct i, j).
Qed.

Lemma accounted_same d0 req ph i ph' d :
  accounted d0 req ph d →
  (∀ pid, taken (req i) ph' pid = taken (req i) (ph i) pid) →
  accounted d0 req (λ j, if bool_decide (j = i) then ph' else ph j) d.
Proof.
  intros Hacc Hsame pid. rewrite (Hacc pid).
  destruct i; simpl; by rewrite Hsame.
Qed.

(** A step that fails, or gives up, at a place before the commit. *)
Lemma inv_fail d0 req w ph i c' s' l' :
  (∀ j, thread_ok j (req j) (ph j) (thr w j) (store w) (locks w)) →
  stock_nonneg (products (store w)) →
  accounted d0 req ph (store w) →
  (∀ pid, taken (req i) (ph i) pid = 0) →
  frame i (store w) (locks w) (store w) l' →
  only harmless c' → sent s' = None →
  inv d0 req (mk_world (store w) l' (set_thread i (mk_thread c' s') (thr w))).
Proof.
  intros Hthr Hnn Hacc Htk Hfr Hc Hs.
  apply (inv_assemble d0 req w ph i Failed); try done.
  - split; [done|]. unfold succeeded. simpl. by rewrite Hs.
  - apply accounted_same; [done|]. intros pid. by rewrite Htk.
Qed.

(** A step that moves on, before the commit, without touching the
    committed tables. *)
Lemma inv_move d0 req w ph i ph' c' s' l' :
  (∀ j, thread_ok j (req j) (ph j) (thr w j) (store w) (locks w)) →
  stock_nonneg (products (store w)) →
  accounted d0 req ph (store w) →
  (∀ pid, taken (req i) ph' pid = taken (req i) (ph i) pid) →
  frame i (store w) (locks w) (store w) l' →
  thread_ok i (req i) ph' (mk_thread c' s') (store w) l' →
  inv d0 req (mk_world (store w) l' (set_thread i (mk_thread c' s') (thr w))).
Proof.
  intros Hthr Hnn Hacc Htk Hfr Hi.
  apply (inv_assemble d0 req w ph i ph'); try done.
  by apply accounted_same.
Qed.

Lemma step_thread_call ch i w w' {R} (c : eff R) k :
  code (thr w i) = Call c k → step_thread ch i w = Some w' →
  ∃ l',
    w' = mk_world (exec ch c (store w) (st (thr w i))).1.2 l'
           (set_thread i
              (mk_thread (k (exec ch c (store w) (st (thr w i))).1.1)
                 (exec ch c (store w) (st (thr w i))).2)
              (thr w)) ∧
    ((is_Some (fault ch) ∧ l' = locks w) ∨
     (fault ch = None ∧ may_run i c (locks w) = true ∧
      l' = locks_after i c (st (thr w i)) (store w) (locks w))).
Proof.
  unfold step_thread. intros ->.
  destruct (exec ch c (store w) (st (thr w i))) as [[r d'] s'].
  destruct (fault ch) as [e|]; simpl.
  - intros [= <-]. eexists. split; [done|]. left. by split.
  - destruct (may_run i c (locks w)); [|done].
    intros [= <-]. eexists. split; [done|]. right. by split.
Qed.

Lemma demand_snoc done item pid :
  demand (done ++ [item]) pid
  = demand done pid + (if decide (Item.productId item = pid) then Item.quantity item else 0).
Proof.
  unfold demand. induction done as [|i done IH]; simpl.
  - case_decide; lia.
  - rewrite IH. repeat case_decide; lia.
Qed.

Lemma txn_ok_lock i done w d l pid :
  txn_ok i done w d l → txn_ok i done w d (<[pid := i]> l).
Proof.
  intros Hok pid'. specialize (Hok pid').
  destruct (products w !! pid') as [row|]; [|done].
  destruct Hok as (Hl & Hrest). split; [|done].
  destruct (decide (pid = pid')) as [->|Hne];
    [by rewrite lookup_insert_eq | by rewrite lookup_insert_ne].
Qed.

Lemma frame_quiet i {R} (c : eff R) s d l :
  quiet R c → frame i d l d (locks_after i c s d l).
Proof.
  intros Hq. unfold locks_after.
  destruct (ends_transaction c); [apply frame_unlock|].
  destruct c; simpl in *; try apply frame_same.
  destruct q; simpl in *; try done; apply frame_same.
Qed.

(** ** Every step keeps the invariant *)

Section Step.
Variables (d0 : db) (req : bool → Request.t) (w : world) (ph : bool → phase).
Variables (i : bool) (ch : choice) (w' : world).
Hypothesis Hthr : ∀ j, thread_ok j (req j) (ph j) (thr w j) (store w) (locks w).
Hypothesis Hnn : stock_nonneg (products (store w)).
Hypothesis Hacc : accounted d0 req ph (store w).
Hypothesis Hstep : step_thread ch i w = Some w'.

Lemma step_Start : ph i = Start → inv d0 req w'.
Proof.
  intros Hph. pose proof (Hthr i) as Hi. rewrite Hph in Hi.
  destruct Hi as [Hcode Hsent].
  destruct (code_start_next (req i)) as (k & Hk & HkOk & HkRaise).
  rewrite Hk in Hcode.
  destruct (step_thread_call _ _ _ _ _ _ Hcode Hstep) as (l' & -> & Hl').
  simpl. destruct Hl' as [[[e He] ->] | (Hnf & _ & ->)].
  - rewrite He. simpl. rewrite HkRaise.
    apply (inv_fail d0 req w ph);
      [done | done | done | intros pid; by rewrite Hph | apply frame_same
      | apply guarded_throw_harmless | done].
  - rewrite Hnf. simpl. rewrite HkOk.
    apply (inv_move d0 req w ph i Begun);
      [done | done | done | intros pid; by rewrite Hph | apply frame_same | done].
Qed.

Lemma step_Begun : ph i = Begun → inv d0 req w'.
Proof.
  intros Hph. pose proof (Hthr i) as Hi. rewrite Hph in Hi.
  destruct Hi as (Hcode & Hsent & Hcl).
  destruct (code_begun_next (req i)) as (k & Hk & HkOk & HkRaise).
  rewrite Hk in Hcode.
  destruct (step_thread_call _ _ _ _ _ _ Hcode Hstep) as (l' & -> & Hl').
  simpl. rewrite Hcl. destruct Hl' as [[[e He] ->] | (Hnf & _ & ->)].
  - rewrite He. simpl. rewrite HkRaise.
    apply (inv_fail d0 req w ph);
      [done | done | done | intros pid; by rewrite Hph | apply frame_same
      | apply guarded_throw_harmless | done].
  - rewrite Hnf. simpl. rewrite HkOk.
    apply (inv_move d0 req w ph i (Reserving [] (Request.items (req i))));
      [done | done | done | intros pid; by rewrite Hph | apply frame_same |].
    simpl. repeat split; [done..|]. exists no_writes. split; [done|].
    intros pid. simpl. by rewrite lookup_empty.
Qed.

Lemma step_Reserving_cons done item rest :
  ph i = Reserving done (item :: rest) → inv d0 req w'.
Proof.
  intros Hph. pose proof (Hthr i) as Hi. rewrite Hph in Hi.
  destruct Hi as (Hcode & Hsent & Hitems & w0 & Hcl & Htxn).
  destruct (code_reserving_next (req i) item rest)
    as (k & Hk & Hnone & Hlt & Hge & HkRaise).
  rewrite Hk in Hcode.
  destruct (step_thread_call _ _ _ _ _ _ Hcode Hstep) as (l' & -> & Hl').
  assert (∀ pid, taken (req i) (ph i) pid = 0) as Htk by (intros pid; by rewrite Hph).
  simpl. rewrite Hcl. destruct Hl' as [[[e He] ->] | (Hnf & Hrun & ->)].
  { rewrite He. simpl. rewrite HkRaise.
    apply (inv_fail d0 req w ph);
      [done | done | done | done | apply frame_same
      | apply guarded_throw_harmless | done]. }
  rewrite Hnf. unfold locks_after. simpl. rewrite Hcl.
  destruct ((products w0 ∪ products (store w)) !! Item.productId item)
    as [p|] eqn:Hview; simpl.
  - assert (frame i (store w) (locks w) (store w)
              (<[Item.productId item := i]> (locks w))) as Hfr.
    { apply frame_lock. by eapply (may_run_lock i _ _ _ Hrun). }
    destruct (Product.stock_quantity p <? Item.quantity item) eqn:Hcmp.
    + apply (inv_fail d0 req w ph); [done | done | done | done | done | | done].
      by apply Hlt.
    + rewrite Hge by done.
      apply (inv_move d0 req w ph i (Checked done item rest));
        [done | done | done | intros pid; by rewrite Htk | done |].
      simpl. repeat split; [done..|]. exists w0. split; [done|].
      split; [by apply txn_ok_lock|]. split; [by rewrite lookup_insert_eq|].
      exists p. split; [done|]. by apply Z.ltb_ge.
  - apply (inv_fail d0 req w ph);
      [done | done | done | done | apply frame_same | done | done].
Qed.

Lemma step_Reserving_nil done : ph i = Reserving done [] → inv d0 req w'.
Proof.
  intros Hph. pose proof (Hthr i) as Hi. rewrite Hph in Hi.
  destruct Hi as (Hcode & Hsent & Hitems & w0 & Hcl & Htxn).
  rewrite app_nil_r in Hitems. subst done.
  destruct (code_reserved_next (req i)) as (k & Hk & HkOk & HkRaise).
  rewrite Hk in Hcode.
  destruct (step_thread_call _ _ _ _ _ _ Hcode Hstep) as (l' & -> & Hl').
  assert (∀ pid, taken (req i) (ph i) pid = 0) as Htk by (intros pid; by rewrite Hph).
  simpl. rewrite Hcl. destruct Hl' as [[[e He] ->] | (Hnf & Hrun & ->)].
  { rewrite He. simpl. rewrite HkRaise.
    apply (inv_fail d0 req w ph);
      [done | done | done | done | apply frame_same
      | apply guarded_throw_harmless | done]. }
  rewrite Hnf. unfold locks_after. simpl.
  destruct (decimal_10_2 (round_2 (Request.total (req i)))); simpl.
  - rewrite HkOk.
    match goal with
    | |- context [code_adding ?o _] =>
        apply (inv_move d0 req w ph i (Adding o (Request.items (req i))));
          [done | done | done | intros pid; by rewrite Htk | apply frame_same |]
    end.
    simpl. repeat split; [done..|]. eexists. split; [done|]. exact Htxn.
  - rewrite HkRaise.
    apply (inv_fail d0 req w ph);
      [done | done | done | done | apply frame_same
      | apply guarded_throw_harmless | done].
Qed.

Lemma step_Checked done item rest :
  ph i = Checked done item rest → inv d0 req w'.
Proof.
  intros Hph. pose proof (Hthr i) as Hi. rewrite Hph in Hi.
  destruct Hi as (Hcode & Hsent & Hitems & w0 & Hcl & Htxn & Hlock & row & Hrow & Hq).
  destruct (code_checked_next (req i) item rest) as (k & Hk & HkOk & HkRaise).
  rewrite Hk in Hcode.
  destruct (step_thread_call _ _ _ _ _ _ Hcode Hstep) as (l' & -> & Hl').
  assert (∀ pid, taken (req i) (ph i) pid = 0) as Htk by (intros pid; by rewrite Hph).
  simpl. rewrite Hcl. destruct Hl' as [[[e He] ->] | (Hnf & Hrun & ->)].
  { rewrite He. simpl. rewrite HkRaise.
    apply (inv_fail d0 req w ph);
      [done | done | done | done | apply frame_same
      | apply guarded_throw_harmless | done]. }
  rewrite Hnf. unfold locks_after. simpl. rewrite Hcl.
  simpl in Hrow. rewrite Hrow.
  rewrite (insert_id (locks w) _ _ Hlock).
  destruct (set_stock_minus (Item.quantity item) row) as [p'|e] eqn:Hset; simpl.
  - rewrite HkOk.
    apply (inv_move d0 req w ph i (Reserving (done ++ [item]) rest));
      [done | done | done | intros pid; by rewrite Htk | apply frame_same |].
    simpl. repeat split; [done.. | by rewrite <- app_assoc |].
    eexists. split; [done|].
    apply set_stock_minus_Ok in Hset as [-> _].
    intros pid. simpl. rewrite demand_snoc.
    destruct (decide (Item.productId item = pid)) as [<-|Hne].
    + rewrite lookup_insert_eq. simpl. split; [done|]. split; [lia|].
      specialize (Htxn (Item.productId item)).
      rewrite lookup_union in Hrow.
      destruct (products w0 !! Item.productId item) as [r|] eqn:Hw0.
      * destruct Htxn as (_ & _ & row0 & Hrow0 & Heq).
        rewrite Hrow0 in Hrow. simpl in Hrow. injection Hrow as <-.
        exists row0. split; [done|]. lia.
      * destruct (products (store w) !! Item.productId item) as [r0|] eqn:Hd;
          simpl in Hrow; [|done].
        injection Hrow as ->. exists row. split; [done|]. lia.
    + rewrite lookup_insert_ne by done.
      specialize (Htxn pid).
      destruct (products w0 !! pid) as [r|]; [|lia].
      destruct Htxn as (Hl & Hr & row0 & Hrow0 & Heq).
      split; [done|]. split; [done|]. exists row0. split; [done|]. lia.
  - rewrite HkRaise.
    apply (inv_fail d0 req w ph);
      [done | done | done | done | apply frame_same
      | apply guarded_throw_harmless | done].
Qed.

Lemma step_Adding_cons order item rest :
  ph i = Adding order (item :: rest) → inv d0 req w'.
Proof.
  intros Hph. pose proof (Hthr i) as Hi. rewrite Hph in Hi.
  destruct Hi as (Hcode & Hsent & w0 & Hcl & Htxn).
  destruct (code_adding_next order item rest) as (k & Hk & HkOk & HkRaise).
  rewrite Hk in Hcode.
  destruct (step_thread_call _ _ _ _ _ _ Hcode Hstep) as (l' & -> & Hl').
  assert (∀ pid, taken (req i) (ph i) pid = 0) as Htk by (intros pid; by rewrite Hph).
  simpl. rewrite Hcl. destruct Hl' as [[[e He] ->] | (Hnf & Hrun & ->)].
  { rewrite He. simpl. rewrite HkRaise.
    apply (inv_fail d0 req w ph);
      [done | done | done | done | apply frame_same
      | apply guarded_throw_harmless | done]. }
  rewrite Hnf. unfold locks_after. simpl.
  destruct (int4 (Item.quantity item) && decimal_10_2 (round_2 (Item.price item))); simpl.
  - rewrite HkOk.
    apply (inv_move d0 req w ph i (Adding order rest));
      [done | done | done | intros pid; by rewrite Htk | apply frame_same |].
    simpl. repeat split; [done..|]. eexists. split; [done|]. exact Htxn.
  - rewrite HkRaise.
    apply (inv_fail d0 req w ph);
      [done | done | done | done | apply frame_same
      | apply guarded_throw_harmless | done].
Qed.

Lemma step_Adding_nil order : ph i = Adding order [] → inv d0 req w'.
Proof.
  intros Hph. pose proof (Hthr i) as Hi. rewrite Hph in Hi.
  destruct Hi as (Hcode & Hsent & w0 & Hcl & Htxn).
  destruct (code_added_next order) as (k & Hk & HkOk & HkRaise).
  rewrite Hk in Hcode.
  destruct (step_thread_call _ _ _ _ _ _ Hcode Hstep) as (l' & -> & Hl').
  assert (∀ pid, taken (req i) (ph i) pid = 0) as Htk by (intros pid; by rewrite Hph).
  simpl. rewrite Hcl. destruct Hl' as [[[e He] ->] | (Hnf & Hrun & ->)].
  { rewrite He. simpl. rewrite HkRaise.
    apply (inv_fail d0 req w ph);
      [done | done | done | done | apply frame_same
      | apply guarded_throw_harmless | done]. }
  rewrite Hnf. unfold locks_after. simpl.
  apply (inv_assemble d0 req w ph i Committed); [done | | apply HkOk | |].
  - intros pid Hl. split; [by apply frame_unlock|].
    simpl. specialize (Htxn pid).
    destruct (products w0 !! pid) as [row|] eqn:Hw0.
    + destruct Htxn as [Hl' _]. rewrite Hl in Hl'. by destruct i.
    + by rewrite lookup_union_r.
  - intros pid p. simpl. specialize (Htxn pid).
    destruct (products w0 !! pid) as [row|] eqn:Hw0.
    + rewrite (lookup_union_Some_l _ _ _ _ Hw0). intros [= <-]. by destruct Htxn as (_ & ? & _).
    + rewrite lookup_union_r by done. apply Hnn.
  - intros pid. simpl. specialize (Htxn pid). specialize (Hacc pid).
    specialize (Htk pid).
    destruct (products w0 !! pid) as [row|] eqn:Hw0.
    + rewrite (lookup_union_Some_l _ _ _ _ Hw0).
      destruct Htxn as (_ & _ & row0 & Hrow0 & Heq).
      rewrite Hrow0 in Hacc.
      destruct (products d0 !! pid) as [p0|]; [|done].
      simpl in *. injection Hacc as Hacc. f_equal.
      destruct i; simpl in *; lia.
    + rewrite lookup_union_r by done. rewrite Hacc.
      destruct (products d0 !! pid) as [p0|]; [|done].
      simpl. f_equal. destruct i; simpl in *; lia.
Qed.

Lemma step_Committed : ph i = Committed → inv d0 req w'.
Proof.
  intros Hph. pose proof (Hthr i) as Hi. rewrite Hph in Hi. simpl in Hi.
  destruct (code (thr w i)) as [a|e| |R c k] eqn:Hcode;
    try (unfold step_thread in Hstep; by rewrite Hcode in Hstep).
  destruct Hi as [Hc Hk].
  destruct (step_thread_call _ _ _ _ _ _ Hcode Hstep) as (l' & -> & Hl').
  rewrite (exec_quiet_store ch c _ _ Hc).
  apply (inv_move d0 req w ph i Committed);
    [done | done | done | intros pid; by rewrite Hph | | apply Hk].
  destruct Hl' as [[_ ->] | (_ & _ & ->)]; [apply frame_same | by apply frame_quiet].
Qed.

Lemma step_Failed : ph i = Failed → inv d0 req w'.
Proof.
  intros Hph. pose proof (Hthr i) as Hi. rewrite Hph in Hi. simpl in Hi.
  destruct Hi as [Hi Hno].
  destruct (code (thr w i)) as [a|e| |R c k] eqn:Hcode;
    try (unfold step_thread in Hstep; by rewrite Hcode in Hstep).
  destruct Hi as [Hc Hk].
  destruct (step_thread_call _ _ _ _ _ _ Hcode Hstep) as (l' & -> & Hl').
  rewrite (exec_quiet_store ch c _ _ (harmless_quiet _ _ Hc)).
  apply (inv_move d0 req w ph i Failed);
    [done | done | done | intros pid; by rewrite Hph | |].
  - destruct Hl' as [[_ ->] | (_ & _ & ->)]; [apply frame_same|].
    apply frame_quiet. by apply harmless_quiet.
  - split; [apply Hk|]. by apply exec_harmless_sent.
Qed.
End Step.

Lemma step_inv d0 req w w' : inv d0 req w → step w w' → inv d0 req w'.
Proof.
  intros (ph & Hthr & Hnn & Hacc) (ch & i & Hstep).
  destruct (ph i) as [| |done rest|done item rest|order rest| |] eqn:Hph.
  - by eapply step_Start.
  - by eapply step_Begun.
  - destruct rest as [|item rest];
      [by eapply step_Reserving_nil | by eapply step_Reserving_cons].
  - by eapply step_Checked.
  - destruct rest as [|item rest];
      [by eapply step_Adding_nil | by eapply step_Adding_cons].
  - by eapply step_Committed.
  - by eapply step_Failed.
Qed.

Lemma inv_arrive d req : stock_nonneg (products d) → inv d req (arrive d req).
Proof.
  intros Hnn.
  exists (λ i, match validation_errors (req i) with [] => Start | _ => Failed end).
  split; [|split; [done|]].
  - intros i. simpl.
    destruct (validation_errors (req i)) as [|msg msgs] eqn:Hval; simpl.
    + split; [by apply place_order_valid | done].
    + split; [apply place_order_invalid; by rewrite Hval | done].
  - intros pid. simpl.
    assert (∀ r, taken r match validation_errors r with [] => Start | _ => Failed end pid
                 = 0) as Htk.
    { intros r. by destruct (validation_errors r). }
    rewrite !Htk. destruct (products d !! pid); simpl; [f_equal; lia | done].
Qed.

Lemma inv_reachable d req w :
  stock_nonneg (products d) → rtc step (arrive d req) w → inv d req w.
Proof.
  intros Hnn Hsteps.
  revert w Hsteps.
  apply (rtc_ind_r (R := step) (λ w, inv d req w) (arrive d req));
    [by apply inv_arrive|].
  intros w1 w2 _ Hstep IH. by eapply step_inv.
Qed.

Lemma succeeded_committed j r ph t d l :
  thread_ok j r ph t d l → succeeded (st t) → ph = Committed.
Proof.
  unfold succeeded. destruct ph; simpl; try done.
  - intros [_ Hs]. by rewrite Hs.
  - intros (_ & Hs & _). by rewrite Hs.
  - intros (_ & Hs & _). by rewrite Hs.
  - intros (_ & Hs & _). by rewrite Hs.
  - intros (_ & Hs & _). by rewrite Hs.
  - by intros [_ Hno].
Qed.

Lemma rtc_play sched : ∀ w, rtc step w (play sched w).
Proof.
  induction sched as [|[i ch] sched IH]; intros w; simpl; [done|].
  destruct (step_thread ch i w) as [w1|] eqn:Hstep; simpl; [|apply IH].
  eapply rtc_l; [by exists ch, i | apply IH].
Qed.

(** C2: in every state that two concurrent order requests can reach, under
    any interleaving and any faults, no committed stock is negative; and if
    the two requests together ask more of some product than its stock, they
    have not both been answered 201. *)
Theorem no_oversell d req w :
  stock_nonneg (products d) →
  rtc step (arrive d req) w →
  stock_nonneg (products (store w)) ∧
  ∀ pid p, products d !! pid = Some p →
    Product.stock_quantity p
    < demand (Request.items (req true)) pid + demand (Request.items (req false)) pid →
    ¬ (succeeded (st (thr w true)) ∧ succeeded (st (thr w false))).
Proof.
  intros Hnn Hsteps.
  destruct (inv_reachable d req w Hnn Hsteps) as (ph & Hthr & Hnn' & Hacc).
  split; [done|]. intros pid p Hp Hlt [Ht Hf].
  apply (succeeded_committed _ _ _ _ _ _ (Hthr true)) in Ht.
  apply (succeeded_committed _ _ _ _ _ _ (Hthr false)) in Hf.
  specialize (Hacc pid). rewrite Hp, Ht, Hf in Hacc. simpl in Hacc.
  destruct (products (store w) !! pid) as [p'|] eqn:Hp'; [|done].
  injection Hacc as Hacc. apply Hnn' in Hp'. lia.
Qed.


Lemma no_oversell_witness :
  succeeded (st (thr (play last_pair_schedule (arrive db_last_pair req_last_pair)) true)) ∧
  ¬ succeeded (st (thr (play last_pair_schedule (arrive db_last_pair req_last_pair)) false)) ∧
  Product.stock_quantity
    <$> products (store (play last_pair_schedule (arrive db_last_pair req_last_pair))) !! 1%N
  = Some 0.
Proof.
  assert (stock_nonneg (products db_last_pair)) as Hnn.
  { intros pid p. unfold db_last_pair. simpl.
    rewrite lookup_singleton. case_decide; [|done]. intros [= <-]. simpl. lia. }
  destruct (no_oversell db_last_pair req_last_pair
              (play last_pair_schedule (arrive db_last_pair req_last_pair))
              Hnn (rtc_play last_pair_schedule (arrive db_last_pair req_last_pair)))
    as [_ Hpair].
  assert (succeeded (st (thr (play last_pair_schedule
                                (arrive db_last_pair req_last_pair)) true))) as Ht.
  { vm_compute. reflexivity. }
  split; [exact Ht|]. split; [|vm_compute; reflexivity].
  intros Hf.
  apply (Hpair 1%N (Product.mk "Sneaker" 1999 true 1)); [reflexivity | | by split].
  vm_compute. reflexivity.
Defined.

(** ** POST /orders: what is answered, and when *)

(** An invalid request is answered 400 with the first message of the
    validation chain, before any call on the store: no client is acquired
    and the tables are not touched. *)
Theorem place_order_rejects_invalid env req d msg msgs :
  validation_errors req = msg :: msgs →
  handle env req d
  = (Returned, d, mk_session None 0 (Some (mk_response 400 (json_error msg))) 0).
Proof.
  intros Hval. unfold handle, place_order, try_catch_finally, place_order_try.
  rewrite run_finally, run_catch, run_bind, run_validate, Hval. reflexivity.
Qed.

Lemma place_order_rejects_invalid_witness :
  handle env_quiet req_empty db_three_sneakers
  = (Returned, db_three_sneakers,
     mk_session None 0
       (Some (mk_response 400 (json_error "At least one order item is required"))) 0).
Proof.
  apply (place_order_rejects_invalid env_quiet req_empty db_three_sneakers
           "At least one order item is required" []).
  reflexivity.
Defined.

Lemma validation_errors_nil req :
  validation_errors req = [] →
  Forall (λ i, 1 ≤ Item.quantity i) (Request.items req).
Proof.
  unfold validation_errors. intros H.
  apply app_eq_nil in H as [_ H]. apply app_eq_nil in H as [H _].
  induction (Request.items req) as [|i items IH]; [constructor|].
  simpl in H. apply app_eq_nil in H as [Hi H].
  constructor; [|by apply IH].
  destruct (Item.quantity i <? 1) eqn:Hlt; [done|]. by apply Z.ltb_ge in Hlt.
Qed.

Lemma refusal_reservable items : ∀ ps,
  refusal items ps = None ↔ reservable items ps = true.
Proof.
  induction items as [|i items IH]; intros ps; simpl; [done|].
  destruct (ps !! Item.productId i) as [p|]; [|done].
  rewrite andb_true_iff, Z.leb_le, <- IH.
  destruct (Product.stock_quantity p <? Item.quantity i) eqn:Hlt.
  - apply Z.ltb_lt in Hlt. split; [done|]. lia.
  - apply Z.ltb_ge in Hlt. tauto.
Qed.

Lemma take_stock_in_range ps i p :
  stock_in_range ps → ps !! Item.productId i = Some p →
  0 ≤ Item.quantity i ≤ Product.stock_quantity p →
  stock_in_range (take_stock ps i).
Proof.
  intros Hps Hp Hq pid p'. unfold take_stock. rewrite lookup_alter.
  case_decide as Heq; [subst pid|apply Hps].
  rewrite Hp. simpl. intros [= <-]. simpl.
  apply Hps in Hp. apply int4_spec in Hp. apply int4_spec.
  unfold int4_min, int4_max in *. lia.
Qed.

Section Quiet.
Variable env : nat → choice.
Hypothesis Hquiet : no_faults env.

(** The first loop when nothing fails on the way: it gives up with the
    message of [refusal], or goes through. *)
Lemma run_reserve_loop_quiet items : ∀ w d s,
  client s = Some (InTxn w) → sent s = None →
  stock_in_range (products (apply_writes w d)) →
  Forall (λ i, 1 ≤ Item.quantity i) items →
  match refusal items (products (apply_writes w d)) with
  | Some msg =>
      ∃ s', run env (for_of items reserve) d s = (Returned, d, s') ∧
        sent s' = Some (mk_response 400 (json_error msg))
  | None => ∃ s', run env (for_of items reserve) d s = (Normal tt, d, s')
  end.
Proof.
  induction items as [|i items IH]; intros w d s Hc Hs Hrange Hq.
  { by eexists. }
  apply Forall_cons in Hq as [Hqi Hq].
  cbn [for_of refusal]. rewrite run_bind. unfold reserve.
  rewrite run_bind, run_await. simpl. rewrite Hc, Hquiet. simpl.
  destruct ((products w ∪ products d) !! Item.productId i) as [p|] eqn:Hp; simpl.
  - destruct (Product.stock_quantity p <? Item.quantity i) eqn:Hlt; simpl.
    + rewrite Hquiet. simpl. by eexists.
    + rewrite Hquiet. simpl. rewrite Hp. apply Z.ltb_ge in Hlt.
      assert (stock_in_range (take_stock (products w ∪ products d) i)) as Hrange'.
      { eapply take_stock_in_range; [done..|lia]. }
      unfold set_stock_minus.
      assert (int4 (Product.stock_quantity p - Item.quantity i) = true) as ->.
      { specialize (Hrange' (Item.productId i)). unfold take_stock in Hrange'.
        rewrite lookup_alter, decide_True, Hp in Hrange' by done.
        by apply (Hrange' _ eq_refl). }
      simpl.
      match goal with
      | |- context [run env _ d ?s1] =>
          specialize (IH (mk_db (<[Item.productId i :=
                                     Product.mk (Product.name p) (Product.price p)
                                       (Product.stock_quantity p - Item.quantity i >? 0)
                                       (Product.stock_quantity p - Item.quantity i)]>
                                   (products w)) (orders w) (order_items w))
                        d s1 eq_refl Hs)
      end.
      simpl in IH. rewrite <- insert_union_l in IH.
      unfold take_stock in *. rewrite (alter_as_insert _ _ _ _ Hp) in *.
      by apply IH.
  - rewrite Hquiet. simpl. by eexists.
Qed.

(** The second loop when nothing fails on the way. *)
Lemma run_add_items_quiet o items : ∀ w d s,
  client s = Some (InTxn w) →
  Forall (λ i, int4 (Item.quantity i) && decimal_10_2 (round_2 (Item.price i)) = true)
    items →
  ∃ s', run env (for_of items (add_item o)) d s = (Normal tt, d, s').
Proof.
  induction items as [|i items IH]; intros w d s Hc Hfit; [by eexists|].
  apply Forall_cons in Hfit as [Hi Hfit].
  cbn [for_of]. rewrite run_bind. unfold add_item at 1.
  rewrite run_await. simpl. rewrite Hc, Hquiet. simpl. rewrite Hi.
  by eapply IH.
Qed.
End Quiet.

Lemma quantities_in_range items : ∀ ps,
  reservable items ps = true → stock_in_range ps →
  Forall (λ i, 1 ≤ Item.quantity i) items →
  Forall (λ i, int4 (Item.quantity i) = true) items.
Proof.
  induction items as [|i items IH]; intros ps Hres Hrange Hq; [constructor|].
  apply Forall_cons in Hq as [Hqi Hq]. simpl in Hres.
  destruct (ps !! Item.productId i) as [p|] eqn:Hp; [|done].
  apply andb_true_iff in Hres as [Hle Hres]. apply Z.leb_le in Hle.
  constructor.
  - apply Hrange in Hp as Hp'. apply int4_spec in Hp'. apply int4_spec.
    unfold int4_min, int4_max in *. lia.
  - apply (IH (take_stock ps i)); [done| |done].
    eapply take_stock_in_range; [done..|lia].
Qed.

Section Answers.
Variable env : nat → choice.
Hypothesis Hquiet : no_faults env.

Lemma run_begin_quiet req d :
  validation_errors req = [] →
  run env (place_order_try req) d init_session
  = run env (prog_bind (λ _, after_reserve req) (for_of (Request.items req) reserve)) d
      (mk_session (Some (InTxn no_writes)) 0 None 2).
Proof.
  intros Hval. unfold place_order_try.
  rewrite run_bind, run_validate, Hval. cbn [negb].
  simpl. rewrite Hquiet. simpl. rewrite Hquiet. reflexivity.
Qed.

(** A valid request, one of whose line items cannot be served, is answered
    400 with the message of the first such item when nothing else fails:
    "no longer exist" for a missing product, "Insufficient stock" with the
    name of the product otherwise. The tables stay as they were. *)
Theorem place_order_refuses req d msg :
  validation_errors req = [] →
  stock_in_range (products d) →
  refusal (Request.items req) (products d) = Some msg →
  (handle env req d).1.2 = d ∧
  sent (handle env req d).2 = Some (mk_response 400 (json_error msg)).
Proof.
  intros Hval Hrange Href.
  unfold handle, place_order, try_catch_finally.
  rewrite run_finally, run_catch, (run_begin_quiet req d Hval), run_prog_bind.
  pose proof (run_reserve_loop_quiet env Hquiet (Request.items req) no_writes d
                (mk_session (Some (InTxn no_writes)) 0 None 2) eq_refl eq_refl) as Hloop.
  rewrite apply_no_writes in Hloop.
  specialize (Hloop Hrange (validation_errors_nil req Hval)).
  rewrite Href in Hloop. destruct Hloop as (s' & -> & Hs').
  destruct (run_place_order_finally env d s') as (s'' & -> & Hs'').
  simpl. by rewrite Hs''.
Qed.

(** A valid request whose amounts fit their columns and whose line items
    can all be served is answered 201 when nothing fails, with the whole
    order persisted. *)
Theorem place_order_accepts req d :
  validation_errors req = [] →
  amounts_fit req →
  stock_in_range (products d) →
  reservable (Request.items req) (products d) = true →
  succeeded (handle env req d).2 ∧ ∃ o, persisted req o d (handle env req d).1.2.
Proof.
  intros Hval [Htotal Hprices] Hrange Hres.
  assert (∃ d' s', run env (place_order_try req) d init_session = (Normal tt, d', s'))
    as (d' & s' & Htry).
  { rewrite (run_begin_quiet req d Hval), run_prog_bind.
    pose proof (run_reserve_loop_quiet env Hquiet (Request.items req) no_writes d
                  (mk_session (Some (InTxn no_writes)) 0 None 2) eq_refl eq_refl)
      as Hloop.
    rewrite apply_no_writes in Hloop.
    specialize (Hloop Hrange (validation_errors_nil req Hval)).
    apply refusal_reservable in Hres as Href. rewrite Href in Hloop.
    destruct Hloop as (s1 & Hrun).
    destruct (run_reserve_loop env (Request.items req) no_writes d
                (mk_session (Some (InTxn no_writes)) 0 None 2) eq_refl eq_refl)
      as (c & s1' & Hrun' & Hpost).
    rewrite Hrun in Hrun'. injection Hrun' as <- <-. rewrite Hrun.
    destruct Hpost as (_ & Hs1 & w1 & Hc1 & _).
    unfold after_reserve. rewrite run_bind, run_await. simpl.
    rewrite Hc1, Hquiet. simpl. rewrite Htotal.
    rewrite run_prog_bind.
    match goal with
    | |- context [run env (for_of _ (add_item ?o)) d ?s2] =>
        destruct (run_add_items_quiet env Hquiet o (Request.items req)
                    (mk_db (products w1) (orders w1 ++ [o]) (order_items w1)) d s2
                    eq_refl) as (s3 & Hrun3);
        [|destruct (run_add_items env o (Request.items req)
                      (mk_db (products w1) (orders w1 ++ [o]) (order_items w1)) d s2
                      eq_refl Hs1) as (c3 & s3' & Hrun3' & _ & Hpost3)]
    end.
    { pose proof (quantities_in_range _ _ Hres Hrange (validation_errors_nil req Hval))
        as Hq.
      clear -Hq Hprices. induction Hq as [|i items Hi Hq IH]; [constructor|].
      apply Forall_cons in Hprices as [Hp Hprices].
      constructor; [by rewrite Hi, Hp | by apply IH]. }
    rewrite Hrun3 in Hrun3'. injection Hrun3' as <- <-. rewrite Hrun3.
    destruct Hpost3 as (w3 & Hc3 & _).
    unfold commit_and_respond. rewrite run_bind, run_await. simpl.
    rewrite Hc3, Hquiet. simpl. by eexists _, _. }
  unfold handle, place_order, try_catch_finally. rewrite run_finally, run_catch.
  destruct (run_place_order_try env req d) as (c & d1 & s1 & Hrun & Hpost).
  rewrite Htry in Hrun. injection Hrun as <- <- <-. rewrite Htry.
  destruct (run_place_order_finally env d' s') as (s2 & -> & Hs2).
  destruct Hpost as (o & Hsent & Hpers & _). simpl. split.
  - unfold succeeded. by rewrite Hs2, Hsent.
  - by exists o.
Qed.
End Answers.

Lemma place_order_refuses_witness :
  (handle env_quiet req_too_many db_three_sneakers).1.2 = db_three_sneakers ∧
  sent (handle env_quiet req_too_many db_three_sneakers).2
  = Some (mk_response 400 (json_error (insufficient_stock "Sneaker"))).
Proof.
  apply (place_order_refuses env_quiet (λ n, eq_refl) req_too_many db_three_sneakers).
  - reflexivity.
  - intros pid p. unfold db_three_sneakers. simpl.
    rewrite lookup_singleton. case_decide; [|done]. by intros [= <-].
  - reflexivity.
Defined.

Lemma place_order_accepts_witness :
  succeeded (handle env_quiet req_twice db_three_sneakers).2 ∧
  ∃ o, persisted req_twice o db_three_sneakers
         (handle env_quiet req_twice db_three_sneakers).1.2.
Proof.
  apply (place_order_accepts env_quiet (λ n, eq_refl) req_twice db_three_sneakers).
  - reflexivity.
  - split; [reflexivity|]. repeat constructor.
  - intros pid p. unfold db_three_sneakers. simpl.
    rewrite lookup_singleton. case_decide; [|done]. by intros [= <-].
  - reflexivity.
Defined.

(** ** POST /orders: what an accepted order does to the stock *)

Lemma demand_cons i items pid :
  demand (i :: items) pid
  = (if decide (Item.productId i = pid) then Item.quantity i else 0) + demand items pid.
Proof. unfold demand. simpl. case_decide; lia. Qed.

Lemma decrement_all_stock items : ∀ ps pid,
  Product.stock_quantity <$> decrement_all items ps !! pid
  = (λ p, Product.stock_quantity p - demand items pid) <$> ps !! pid.
Proof.
  induction items as [|i items IH]; intros ps pid.
  - simpl. destruct (ps !! pid); simpl; [f_equal; unfold demand; simpl; lia | done].
  - change (decrement_all (i :: items) ps) with (decrement_all items (take_stock ps i)).
    rewrite IH, demand_cons. unfold take_stock. rewrite lookup_alter.
    case_decide as Heq.
    + subst pid. destruct (ps !! Item.productId i); simpl; [f_equal; lia | done].
    + destruct (ps !! pid); simpl; [f_equal; lia | done].
Qed.

(** When an order is accepted, the stock of every product has gone down by
    the sum of the quantities of the line items that name it: line items
    for the same product add up, and products not named keep their stock. *)
Theorem place_order_takes_demand env req d :
  succeeded (handle env req d).2 →
  ∀ pid,
    Product.stock_quantity <$> products (handle env req d).1.2 !! pid
    = (λ p, Product.stock_quantity p - demand (Request.items req) pid)
      <$> products d !! pid.
Proof.
  destruct (handle_cases env req d) as (c & d' & s' & -> & [Hok | [-> Hno]]); simpl;
    [|done].
  intros _ pid. destruct Hok as (o & _ & (Hps & _) & _).
  rewrite Hps. apply decrement_all_stock.
Qed.

Lemma place_order_takes_demand_witness :
  Product.stock_quantity
    <$> products (handle env_quiet req_twice db_three_sneakers).1.2 !! 1%N
  = Some 0.
Proof.
  rewrite (place_order_takes_demand env_quiet req_twice db_three_sneakers);
    [reflexivity | vm_compute; reflexivity].
Defined.

Lemma decrement_all_nonneg items : ∀ ps,
  reservable items ps = true → stock_nonneg ps → stock_nonneg (decrement_all items ps).
Proof.
  induction items as [|i items IH]; intros ps Hres Hnn; [done|].
  simpl in Hres. destruct (ps !! Item.productId i) as [p|] eqn:Hp; [|done].
  apply andb_true_iff in Hres as [Hle Hres]. apply Z.leb_le in Hle.
  apply (IH (take_stock ps i)); [done|].
  intros pid p'. unfold take_stock. rewrite lookup_alter.
  case_decide as Heq; [subst pid|apply Hnn].
  rewrite Hp. simpl. intros [= <-]. simpl. lia.
Qed.

(** Whatever the request and whatever fails, the order handler leaves no
    product with a negative stock if none had one. *)
Theorem place_order_stock_nonneg env req d :
  stock_nonneg (products d) → stock_nonneg (products (handle env req d).1.2).
Proof.
  intros Hnn.
  destruct (handle_cases env req d) as (c & d' & s' & -> & [Hok | [-> _]]); [|done].
  destruct Hok as (o & _ & (Hps & _) & _ & Hres). simpl. rewrite Hps.
  by apply decrement_all_nonneg.
Qed.

Lemma stock_nonneg_three_sneakers : stock_nonneg (products db_three_sneakers).
Proof.
  intros pid p. unfold db_three_sneakers. simpl.
  rewrite lookup_singleton. case_decide; [|done]. intros [= <-]. simpl. lia.
Qed.

Lemma place_order_stock_nonneg_witness :
  stock_nonneg (products (handle env_quiet req_twice db_three_sneakers).1.2).
Proof.
  apply (place_order_stock_nonneg env_quiet req_twice db_three_sneakers).
  apply stock_nonneg_three_sneakers.
Defined.

Lemma all_consistent_three_sneakers : all_consistent db_three_sneakers.
Proof.
  intros pid p. unfold db_three_sneakers. simpl.
  rewrite lookup_singleton. case_decide; [|done]. by intros [= <-].
Qed.

Lemma handle_consistent_witness :
  all_consistent (handle env_quiet req_twice db_three_sneakers).1.2.
Proof.
  apply (handle_consistent env_quiet req_twice db_three_sneakers).
  apply all_consistent_three_sneakers.
Defined.

(** ** [decrement_stock] and [restore_stock] together *)

(** [decrement_stock] never leaves a negative stock where there was none,
    whatever the quantity, negative ones included. *)
Theorem decrement_stock_nonneg pid q d :
  stock_nonneg (products d) → stock_nonneg (products (decrement_stock pid q d).2).
Proof.
  intros Hnn. unfold decrement_stock, update_product.
  destruct (products d !! pid) as [p|] eqn:Hp; simpl; [|done].
  destruct (Product.stock_quantity p <? q) eqn:Hlt; [done|].
  apply Z.ltb_ge in Hlt.
  destruct (set_stock_minus q p) as [p'|e] eqn:Hset; simpl; [|done].
  apply set_stock_minus_Ok in Hset as [-> _].
  intros pid' p'. rewrite lookup_insert.
  case_decide; [|apply Hnn]. intros [= <-]. simpl. lia.
Qed.

Lemma decrement_stock_nonneg_witness :
  stock_nonneg (products (decrement_stock 1%N (-2) db_three_sneakers).2).
Proof.
  apply (decrement_stock_nonneg 1%N (-2) db_three_sneakers).
  apply stock_nonneg_three_sneakers.
Defined.

Lemma decrement_stock_consistent_witness :
  all_consistent (decrement_stock 1%N 3 db_three_sneakers).2.
Proof.
  apply (decrement_stock_consistent 1%N 3 db_three_sneakers
           (decrement_stock 1%N 3 db_three_sneakers).1); [by destruct (decrement_stock _ _ _)|].
  apply all_consistent_three_sneakers.
Defined.

(** Taking a quantity off a product that is marked in stock and putting it
    back gives the tables as they were. *)
Theorem decrement_then_restore pid q d p :
  products d !! pid = Some p →
  Product.in_stock p = true →
  int4 (Product.stock_quantity p) = true →
  0 ≤ q ≤ Product.stock_quantity p →
  decrement_stock pid q d = (Ok true, (decrement_stock pid q d).2) ∧
  restore_stock pid q (decrement_stock pid q d).2 = (Ok tt, d).
Proof.
  intros Hp Hin Hs Hq. apply int4_spec in Hs as Hs'. unfold int4_min, int4_max in Hs'.
  assert (int4 (Product.stock_quantity p - q) = true) as Hfit.
  { apply int4_spec. unfold int4_min, int4_max. lia. }
  assert (decrement_stock pid q d = (Ok true, decremented pid q p d)) as Hdec.
  { unfold decrement_stock, update_product, set_stock_minus. rewrite Hp. simpl.
    assert ((Product.stock_quantity p <? q) = false) as -> by (apply Z.ltb_ge; lia).
    by rewrite Hfit. }
  rewrite Hdec. simpl. split; [done|].
  unfold restore_stock, update_product, decremented, set_stock_plus. simpl.
  rewrite lookup_insert_eq. simpl.
  replace (Product.stock_quantity p - q + q) with (Product.stock_quantity p) by lia.
  rewrite Hs, insert_insert_eq. f_equal.
  destruct d as [ps os ois]. simpl in *. f_equal.
  apply insert_id. rewrite Hp. f_equal. destruct p. simpl in *. by subst.
Qed.

Lemma decrement_then_restore_witness :
  restore_stock 1%N 3 (decrement_stock 1%N 3 db_three_sneakers).2
  = (Ok tt, db_three_sneakers).
Proof.
  apply (decrement_then_restore 1%N 3 db_three_sneakers
           (Product.mk "Sneaker" 1999 true 3)); [reflexivity.. | simpl; lia].
Defined.

(** ** The product handlers together *)

Lemma create_product_consistent_witness :
  all_consistent (create_product 2%N body_new_sneaker db_three_sneakers).2.
Proof.
  apply (create_product_consistent 2%N body_new_sneaker db_three_sneakers).
  apply all_consistent_three_sneakers.
Defined.

(** A product that has just been created and is deleted again leaves the
    tables as they were before, if no order item already named its id. *)
Theorem create_then_delete new_id b d :
  status (create_product new_id b d).1 = 201 →
  Forall (λ i, OrderItem.product_id i ≠ Some new_id) (order_items d) →
  delete_product new_id (create_product new_id b d).2
  = (mk_response 200 (json_message "Product deleted"), d).
Proof.
  intros Hst Hrefs. unfold create_product in *.
  destruct (create_product_errors b); [|done].
  destruct (negb _ || negb _); [done|].
  destruct (products d !! new_id) eqn:Hnew; [done|].
  unfold delete_product. simpl. rewrite lookup_insert_eq. f_equal.
  destruct d as [ps os ois]. simpl in *. f_equal.
  - by rewrite delete_insert_eq, delete_id.
  - clear -Hrefs. induction Hrefs as [|i ois Hi _ IH]; [done|].
    rewrite fmap_cons, IH. f_equal. unfold on_delete_set_null. by rewrite decide_False.
Qed.

Lemma create_then_delete_witness :
  delete_product 2%N (create_product 2%N body_new_sneaker db_one_order).2
  = (mk_response 200 (json_message "Product deleted"), db_one_order).
Proof.
  apply (create_then_delete 2%N body_new_sneaker db_one_order); [reflexivity|].
  repeat constructor. discriminate.
Defined.

(** An accepted PATCH leaves its product with [in_stock] in step with
    [stock_quantity], whatever the row was before and whether or not the
    body names the stock. *)
Theorem patch_product_repairs pid b d :
  status (patch_product pid b d).1 = 200 →
  ∃ p', products (patch_product pid b d).2 !! pid = Some p' ∧ in_stock_consistent p'.
Proof.
  unfold patch_product.
  destruct (update_product_errors b); [|done].
  destruct (products d !! pid) as [cur|]; [|done].
  destruct (negb _ || negb _); [done|].
  intros _. simpl. eexists. by rewrite lookup_insert_eq.
Qed.

Lemma patch_product_repairs_witness :
  products (patch_product 1%N body_nothing (restore_stock 1%N 0 db_sold_out).2).2 !! 1%N
  = Some (Product.mk "Sneaker" 1999 false 0).
Proof.
  destruct (patch_product_repairs 1%N body_nothing (restore_stock 1%N 0 db_sold_out).2)
    as (p' & Hp' & _); [reflexivity|].
  reflexivity.
Defined.

Lemma update_product_errors_over b2 b1 :
  update_product_errors b1 = [] →
  update_product_errors (body_over b2 b1) = update_product_errors b2.
Proof.
  unfold update_product_errors, body_over. simpl. intros H.
  apply app_eq_nil in H as [Hn H]. apply app_eq_nil in H as [Hc H].
  apply app_eq_nil in H as [Hp Hs].
  destruct (ProductBody.name b2), (ProductBody.category b2), (ProductBody.price b2),
    (ProductBody.stock_quantity b2); simpl;
    rewrite ?Hn, ?Hc, ?Hp, ?Hs, ?app_nil_r; done.
Qed.

Lemma patch_product_unfold pid b d :
  patch_product pid b d =
  match update_product_errors b with
  | msg :: _ => (mk_response 400 (json_error msg), d)
  | [] =>
      match products d !! pid with
      | None => (mk_response 404 (json_error "Product not found"), d)
      | Some cur =>
          if negb (int4 (Product.stock_quantity (patched cur b)))
             || negb (decimal_10_2 (Product.price (patched cur b)))
          then (errorHandler numeric_value_out_of_range, d)
          else (mk_response 200 (json_product "Product updated" (patched cur b)),
                mk_db (<[pid := patched cur b]> (products d)) (orders d) (order_items d))
      end
  end.
Proof. reflexivity. Qed.

Lemma patch_product_200 pid b d :
  status (patch_product pid b d).1 = 200 →
  update_product_errors b = [] ∧
  ∃ cur, products d !! pid = Some cur ∧
    int4 (Product.stock_quantity (patched cur b)) = true ∧
    decimal_10_2 (Product.price (patched cur b)) = true ∧
    patch_product pid b d
    = (mk_response 200 (json_product "Product updated" (patched cur b)),
       mk_db (<[pid := patched cur b]> (products d)) (orders d) (order_items d)).
Proof.
  rewrite patch_product_unfold.
  destruct (update_product_errors b); [|done].
  destruct (products d !! pid) as [cur|]; [|done].
  destruct (int4 _) eqn:Hi, (decimal_10_2 _) eqn:Hd; simpl; try done.
  intros _. split; [done|]. by exists cur.
Qed.

Lemma patched_over cur b1 b2 : patched (patched cur b1) b2 = patched cur (body_over b2 b1).
Proof.
  unfold patched, body_over. simpl.
  by destruct (ProductBody.name b2), (ProductBody.price b2),
    (ProductBody.stock_quantity b2).
Qed.

(** Two accepted PATCHes of a product, one after the other, do what one
    PATCH does whose body takes each field from the second where it has
    it and from the first otherwise: the last write of a field wins. *)
Theorem patch_then_patch pid b1 b2 d :
  status (patch_product pid b1 d).1 = 200 →
  status (patch_product pid b2 (patch_product pid b1 d).2).1 = 200 →
  patch_product pid b2 (patch_product pid b1 d).2
  = patch_product pid (body_over b2 b1) d.
Proof.
  intros H1 H2.
  destruct (patch_product_200 _ _ _ H1) as (Hv1 & cur & Hcur & _ & _ & Heq1).
  destruct (patch_product_200 _ _ _ H2) as (Hv2 & cur2 & Hcur2 & Hi2 & Hd2 & Heq2).
  rewrite Heq2. rewrite Heq1 in Hcur2 |- *. simpl in Hcur2. simpl.
  rewrite lookup_insert_eq in Hcur2. injection Hcur2 as <-.
  rewrite patched_over in *.
  rewrite patch_product_unfold, (update_product_errors_over b2 b1 Hv1), Hv2, Hcur.
  rewrite Hi2, Hd2. simpl. by rewrite insert_insert_eq.
Qed.

Lemma patch_then_patch_witness :
  patch_product 1%N (body_stock 0) (patch_product 1%N (body_price (hundredths 2999)) db_three_sneakers).2
  = (mk_response 200 (json_product "Product updated" (Product.mk "Sneaker" 2999 false 0)),
     mk_db {[ 1%N := Product.mk "Sneaker" 2999 false 0 ]} [] []).
Proof.
  rewrite (patch_then_patch 1%N (body_price (hundredths 2999)) (body_stock 0) db_three_sneakers);
    [|reflexivity..].
  reflexivity.
Defined.

(** ** PATCH /orders/:orderId/status *)

(** Whatever the status asked for, cancellation included, and whatever the
    answer, a status update touches neither [products] (no stock is put
    back) nor [order_items], and leaves every order its id, owner, total
    and address, and every order with another id its status. *)
Theorem patch_order_status_frame fault orderId status d :
  products (patch_order_status fault orderId status d).2 = products d ∧
  order_items (patch_order_status fault orderId status d).2 = order_items d ∧
  Forall2 (λ o o',
             Order.id o' = Order.id o ∧ Order.user_id o' = Order.user_id o ∧
             Order.total o' = Order.total o ∧
             Order.shipping_address o' = Order.shipping_address o ∧
             (Order.id o ≠ orderId → Order.status o' = Order.status o))
    (orders d) (orders (patch_order_status fault orderId status d).2).
Proof.
  assert (∀ os : list Order.t,
            Forall2 (λ o o', Order.id o' = Order.id o ∧ Order.user_id o' = Order.user_id o ∧
                       Order.total o' = Order.total o ∧
                       Order.shipping_address o' = Order.shipping_address o ∧
                       (Order.id o ≠ orderId → Order.status o' = Order.status o)) os os)
    as Hrefl.
  { intros os. apply Forall_Forall2_diag, Forall_forall. by intros o _. }
  unfold patch_order_status.
  repeat case_match; simpl; (split; [done|]; split; [done|]); try apply Hrefl.
  apply Forall2_fmap_r, Forall_Forall2_diag, Forall_forall. intros o1 _.
  simpl. destruct (decide (Order.id o1 = orderId)); simpl; done.
Qed.

(** There is no order of the statuses: any of the five can be set on an
    existing order, whatever its status is, and then every order with that
    id has it. *)
Theorem patch_order_status_any orderId s st o d :
  status_of_string s = Some st →
  o ∈ orders d → Order.id o = orderId →
  status (patch_order_status None orderId (Some s) d).1 = 200 ∧
  ∀ o', o' ∈ orders (patch_order_status None orderId (Some s) d).2 →
    Order.id o' = orderId → Order.status o' = st.
Proof.
  intros Hs Ho Hid. unfold patch_order_status. simpl. rewrite Hs.
  destruct (set_status st <$> filter (λ o0, Order.id o0 = orderId) (orders d))
    as [|o1 os] eqn:Hrows.
  { apply fmap_nil_inv in Hrows.
    assert (o ∈ filter (λ o0, Order.id o0 = orderId) (orders d)) as Hin
      by by apply list_elem_of_filter.
    rewrite Hrows in Hin. by apply elem_of_nil in Hin. }
  simpl. split; [done|]. intros o' Ho' Hid'.
  apply list_elem_of_fmap in Ho' as (o0 & -> & _).
  case_decide as Heq; [done|]. by simpl in Hid'.
Qed.

Lemma patch_order_status_any_witness :
  status (patch_order_status None 10%N (Some "pending") db_shipped).1 = 200 ∧
  Order.status <$> orders (patch_order_status None 10%N (Some "pending") db_shipped).2
  = [pending; pending].
Proof.
  destruct (patch_order_status_any 10%N "pending" pending
              (Order.mk 10%N 7%N shipped 1999 "{}") db_shipped) as [H _];
    [reflexivity | apply list_elem_of_here | reflexivity |].
  split; [exact H | reflexivity].
Defined.

(** ** GET /orders: filing the items under their orders *)

Lemma itemsByOrderId_lookup rows : ∀ (m : gmap uuid (list OrderItem.t)) oid,
  default [] (foldl (λ m item,
                 let m' := match m !! OrderItem.order_id item with
                           | Some _ => m
                           | None => <[OrderItem.order_id item := []]> m
                           end in
                 <[OrderItem.order_id item :=
                     default [] (m' !! OrderItem.order_id item) ++ [item]]> m')
              m rows !! oid)
  = default [] (m !! oid) ++ filter (λ i, OrderItem.order_id i = oid) rows.
Proof.
  induction rows as [|r rows IH]; intros m oid; simpl.
  { by rewrite app_nil_r. }
  rewrite IH. rewrite filter_cons.
  destruct (decide (OrderItem.order_id r = oid)) as [<-|Hne].
  - rewrite lookup_insert_eq. simpl.
    destruct (m !! OrderItem.order_id r) as [l|] eqn:Hm; simpl.
    + by rewrite Hm, <- app_assoc.
    + by rewrite lookup_insert_eq.
  - rewrite lookup_insert_ne by done.
    destruct (m !! OrderItem.order_id r) as [l|] eqn:Hm; [done|].
    by rewrite lookup_insert_ne.
Qed.

(** Each order of the answer carries exactly the item rows whose
    [order_id] is its id, in the order in which the query returned them,
    and none when there is no such row. *)
Theorem with_order_items_spec (orders : list Order.t) (rows : list OrderItem.t) :
  with_order_items orders rows
  = (λ o, (o, filter (λ i, OrderItem.order_id i = Order.id o) rows)) <$> orders.
Proof.
  unfold with_order_items. apply list_fmap_ext. intros _ o _.
  f_equal. unfold itemsByOrderId. by rewrite itemsByOrderId_lookup, lookup_empty.
Qed.

Lemma filter_disjoint_app {A : Type} (P Q : A → Prop)
    `{∀ x, Decision (P x)} `{∀ x, Decision (Q x)} (l : list A) :
  (∀ x, P x → Q x → False) →
  filter P l ++ filter Q l ≡ₚ filter (λ x, P x ∨ Q x) l.
Proof.
  intros Hdisj. induction l as [|x l IH]; [done|].
  rewrite !filter_cons.
  destruct (decide (P x)) as [HP|HP], (decide (Q x)) as [HQ|HQ].
  - by destruct (Hdisj x).
  - rewrite decide_True by tauto. simpl. by rewrite IH.
  - rewrite decide_True by tauto. rewrite <- Permutation_middle. by rewrite IH.
  - rewrite decide_False by tauto. done.
Qed.

(** When the orders have distinct ids and every item row belongs to one of
    them, as the two queries see to, the answer holds every item row once:
    no row is lost, and none is shown twice. *)
Theorem with_order_items_partition (orders : list Order.t) (rows : list OrderItem.t) :
  NoDup (Order.id <$> orders) →
  Forall (λ i, OrderItem.order_id i ∈ Order.id <$> orders) rows →
  concat (snd <$> with_order_items orders rows) ≡ₚ rows.
Proof.
  intros Hnd Hcover. rewrite with_order_items_spec, <- list_fmap_compose.
  assert (filter (λ i, OrderItem.order_id i ∈ Order.id <$> orders) rows = rows) as Hall.
  { clear Hnd. induction Hcover as [|r rows Hr _ IH]; [done|].
    by rewrite filter_cons, decide_True, IH. }
  transitivity (filter (λ i, OrderItem.order_id i ∈ Order.id <$> orders) rows);
    [|by rewrite Hall].
  clear Hcover Hall.
  induction orders as [|o orders IH]; simpl.
  - induction rows as [|r rows IHr]; [done|].
    rewrite filter_cons, decide_False; [done|]. apply not_elem_of_nil.
  - apply NoDup_cons in Hnd as [Ho Hnd]. rewrite (IH Hnd).
    rewrite filter_disjoint_app.
    + erewrite list_filter_iff; [reflexivity|].
      intros i. simpl. rewrite elem_of_cons. split; [intros [->|?]; auto | intros [->|?]; auto].
    + intros i Hi Hin. simpl in *. by rewrite Hi in Hin.
Qed.

Lemma with_order_items_partition_witness :
  concat (snd <$> with_order_items (orders db_shipped) (order_items db_shipped))
  ≡ₚ order_items db_shipped.
Proof.
  apply (with_order_items_partition (orders db_shipped) (order_items db_shipped)).
  - compute_done.
  - compute_done.
Defined.

(** ** The wishlist *)

(** Adding a product to a wishlist never makes a pair (user, product)
    appear twice, whatever the answer. *)
Theorem wishlist_add_unique fault userId productId ps wl :
  NoDup wl → NoDup (wishlist_add fault userId productId ps wl).2.
Proof.
  intros Hnd. unfold wishlist_add.
  destruct fault as [e|]; [done|].
  case_decide as Hin; [done|].
  destruct (ps !! productId); [|done]. simpl.
  apply NoDup_app. split; [done|]. split; [|apply NoDup_singleton].
  intros r Hr Hr'. apply list_elem_of_singleton in Hr'. by subst r.
Qed.

Lemma wishlist_add_unique_witness :
  NoDup (wishlist_add None 7%N 1%N (products db_three_sneakers) wishlist_of_seven).2.
Proof.
  apply (wishlist_add_unique None 7%N 1%N (products db_three_sneakers) wishlist_of_seven).
  compute_done.
Defined.

(** Adding a product a second time is answered 201 like the first time and
    changes nothing. *)
Theorem wishlist_add_twice userId productId ps wl :
  status (wishlist_add None userId productId ps wl).1 = 201 →
  wishlist_add None userId productId ps (wishlist_add None userId productId ps wl).2
  = (mk_response 201 (json_message "Added to wishlist"),
     (wishlist_add None userId productId ps wl).2).
Proof.
  unfold wishlist_add.
  case_decide as Hin; simpl.
  - intros _. by rewrite decide_True.
  - destruct (ps !! productId) eqn:Hp; simpl; [|done].
    intros _. rewrite decide_True; [done|].
    apply elem_of_app. right. apply list_elem_of_here.
Qed.

Lemma wishlist_add_twice_witness :
  wishlist_add None 9%N 1%N (products db_three_sneakers)
    (wishlist_add None 9%N 1%N (products db_three_sneakers) wishlist_of_seven).2
  = (mk_response 201 (json_message "Added to wishlist"),
     wishlist_of_seven ++ [WishlistRow.mk 9%N 1%N]).
Proof.
  rewrite (wishlist_add_twice 9%N 1%N (products db_three_sneakers) wishlist_of_seven);
    reflexivity.
Defined.

(** A product that was added with answer 201 is among the ids GET /wishlist
    gives the user. *)
Theorem wishlist_add_listed userId productId ps wl :
  status (wishlist_add None userId productId ps wl).1 = 201 →
  ∃ ids, wishlist_ids None userId (wishlist_add None userId productId ps wl).2
         = answered 200 ids ∧ productId ∈ ids.
Proof.
  intros Hst. eexists. split; [reflexivity|].
  apply list_elem_of_fmap. exists (WishlistRow.mk userId productId). split; [done|].
  apply elem_of_reverse, list_elem_of_filter. split; [done|].
  unfold wishlist_add in *.
  case_decide as Hin; [done|].
  destruct (ps !! productId); [|done]. simpl.
  apply elem_of_app. right. apply list_elem_of_here.
Qed.

Lemma wishlist_add_listed_witness :
  wishlist_ids None 9%N
    (wishlist_add None 9%N 1%N (products db_three_sneakers) wishlist_of_seven).2
  = answered 200 [1%N].
Proof.
  destruct (wishlist_add_listed 9%N 1%N (products db_three_sneakers) wishlist_of_seven)
    as (ids & Hids & _); [reflexivity|].
  reflexivity.
Defined.

(** DELETE /wishlist/:productId is answered 200 whether or not the product
    was there; afterwards it is not among the user's ids, the table is
    unchanged if it was not there before, and the ids of every other user
    are what they were. *)
Theorem wishlist_remove_effect userId productId wl :
  status (wishlist_remove None userId productId wl).1 = 200 ∧
  (∀ ids, wishlist_ids None userId (wishlist_remove None userId productId wl).2
          = answered 200 ids → productId ∉ ids) ∧
  (WishlistRow.mk userId productId ∉ wl →
   (wishlist_remove None userId productId wl).2 = wl) ∧
  (∀ other, other ≠ userId →
     wishlist_ids None other (wishlist_remove None userId productId wl).2
     = wishlist_ids None other wl).
Proof.
  unfold wishlist_remove, wishlist_ids. simpl. split; [done|]. split; [|split].
  - intros ids [= <-] Hin.
    apply list_elem_of_fmap in Hin as ([u p] & Hp & Hin). simpl in Hp. subst p.
    apply elem_of_reverse, list_elem_of_filter in Hin as [Hu Hin]. simpl in Hu. subst u.
    apply list_elem_of_filter in Hin as [Hne _]. done.
  - intros Hnot. induction wl as [|r wl IH]; [done|].
    apply not_elem_of_cons in Hnot as [Hr Hnot].
    rewrite filter_cons, decide_True by done. by rewrite IH.
  - intros other Hother. do 3 f_equal.
    rewrite list_filter_filter. apply list_filter_iff. intros [u p]. simpl.
    split; [by intros [Hu _] | intros ->; split; [done | by intros [= ? ?]]].
Qed.

(** ** Reviews *)

(** Whatever it answers, POST /reviews keeps at most one review per user
    and product. *)
Theorem review_post_one_each fault new_id userId b ps rs :
  one_review_each rs → one_review_each (review_post fault new_id userId b ps rs).2.
Proof.
  intros Hone. unfold review_post.
  destruct (_ || _); [done|].
  destruct fault as [e|]; [by destruct e|].
  case_decide as Hex; [done|].
  destruct (ps !! ReviewBody.productId b); [|done]. simpl.
  unfold one_review_each. rewrite fmap_app. apply NoDup_app.
  split; [done|]. split; [|apply NoDup_singleton].
  intros [u p] Hin Hin'. apply list_elem_of_singleton in Hin'. injection Hin' as -> ->.
  apply list_elem_of_fmap in Hin as (r & [= Hu Hp] & Hr).
  apply Hex, Exists_exists. by exists r.
Qed.

Lemma review_post_one_each_witness :
  one_review_each reviews_of_seven ∧
  one_review_each
    (review_post None 21%N 7%N review_five_stars (products db_three_sneakers)
       reviews_of_seven).2.
Proof.
  assert (one_review_each reviews_of_seven) as Hone by compute_done.
  split; [exact Hone|].
  apply (review_post_one_each None 21%N 7%N review_five_stars
           (products db_three_sneakers) reviews_of_seven).
  exact Hone.
Defined.

(** A second review of the same product by the same user is answered 409
    by the handler itself, and not stored. *)
Theorem review_post_again new_id userId b ps rs r :
  1 ≤ ReviewBody.rating b ≤ 5 →
  r ∈ rs → Review.user_id r = userId → Review.product_id r = ReviewBody.productId b →
  review_post None new_id userId b ps rs
  = (refused (mk_response 409 (json_error "You already reviewed this product")), rs).
Proof.
  intros Hrating Hr Hu Hp. unfold review_post.
  assert ((ReviewBody.rating b <? 1) || (5 <? ReviewBody.rating b) = false) as ->.
  { apply orb_false_iff. split; apply Z.ltb_ge; lia. }
  rewrite decide_True; [done|]. apply Exists_exists. by exists r.
Qed.

Lemma review_post_again_witness :
  review_post None 21%N 7%N review_five_stars (products db_three_sneakers)
    (review_post None 20%N 7%N review_five_stars (products db_three_sneakers) []).2
  = (refused (mk_response 409 (json_error "You already reviewed this product")),
     [Review.mk 20%N 1%N 7%N 5 None (Some "Fits well")]).
Proof.
  apply (review_post_again 21%N 7%N review_five_stars (products db_three_sneakers) _
           (Review.mk 20%N 1%N 7%N 5 None (Some "Fits well")));
    [simpl; lia | apply list_elem_of_here | reflexivity..].
Defined.

(** The review an accepted POST /reviews answers with is the one
    GET /reviews/:productId/me then gives its author: it carries the rating
    as sent, and the title and content as sent, an empty text being stored
    as NULL. *)
Theorem review_post_then_me fault new_id userId b ps rs review :
  (review_post fault new_id userId b ps rs).1 = answered 201 review →
  review_me None userId (ReviewBody.productId b) (review_post fault new_id userId b ps rs).2
  = answered 200 (Some review) ∧
  Review.rating review = ReviewBody.rating b ∧
  Review.title review = or_null (ReviewBody.title b) ∧
  Review.content review = or_null (ReviewBody.content b).
Proof.
  unfold review_post.
  destruct (_ || _); [done|].
  destruct fault as [e|]; [by destruct e|].
  case_decide as Hex; [done|].
  destruct (ps !! ReviewBody.productId b); [|done]. simpl.
  intros [= <-]. split; [|done].
  unfold review_me. do 2 f_equal. rewrite filter_app.
  assert (filter (λ r, Review.product_id r = ReviewBody.productId b ∧
                       Review.user_id r = userId) rs = []) as ->.
  { clear -Hex. induction rs as [|r rs IH]; [done|].
    rewrite filter_cons, decide_False.
    - apply IH. intros H. apply Hex. by right.
    - intros [Hp Hu]. apply Hex. by left. }
  simpl. rewrite filter_cons, decide_True by done. done.
Qed.

Lemma review_post_then_me_witness :
  review_me None 7%N 1%N
    (review_post None 20%N 7%N review_five_stars (products db_three_sneakers) []).2
  = answered 200 (Some (Review.mk 20%N 1%N 7%N 5 None (Some "Fits well"))).
Proof.
  destruct (review_post_then_me None 20%N 7%N review_five_stars
              (products db_three_sneakers) []
              (Review.mk 20%N 1%N 7%N 5 None (Some "Fits well"))) as [H _];
    [reflexivity | exact H].
Defined.

(** ** The middleware *)

Lemma includes_nonempty (needle s : string) :
  needle ≠ "" → includes needle s = true → s ≠ "".
Proof.
  intros Hn Hi ->. simpl in Hi. destruct needle; [done|]. discriminate.
Qed.

(** An error whose message mentions [token] is answered 401 with that
    message, whatever its code: the test on the message comes before the
    tests on the SQLSTATE, so a unique violation on a constraint of
    [refresh_tokens] is not answered 409. *)
Lemma errorHandler_token_message (production : bool) (err : JsError.t) (m : string) :
  JsError.name err ≠ Some "ValidationError" →
  JsError.name err ≠ Some "BadRequestError" →
  JsError.message err = Some m →
  includes "token" m = true →
  Middleware.errorHandler production err = Middleware.mk_reply 401 (Some m).
Proof.
  intros Hv Hb Hm Hi. unfold Middleware.errorHandler.
  rewrite !bool_decide_eq_false_2 by done. simpl.
  rewrite Hm. simpl. rewrite Hi, orb_true_r.
  unfold Middleware.text_or. rewrite decide_False; [done|].
  by apply (includes_nonempty "token").
Qed.

Lemma errorHandler_token_message_witness :
  Middleware.errorHandler true
    (js_error unique_violation
       "duplicate key value violates unique constraint refresh_tokens_pkey")
  = Middleware.mk_reply 401
      (Some "duplicate key value violates unique constraint refresh_tokens_pkey").
Proof.
  apply (errorHandler_token_message true
           (js_error unique_violation
              "duplicate key value violates unique constraint refresh_tokens_pkey"));
    [done|done|reflexivity|reflexivity].
Defined.

(** For the errors of the handlers, thrown with a message that does not
    mention [token], the middleware answers with the status that
    [errorHandler] on the kind of error gives. *)
Lemma errorHandler_by_kind (production : bool) (e : error) (m : string) :
  includes "token" m = false →
  Middleware.status (Middleware.errorHandler production (js_error e m))
  = status (errorHandler e).
Proof.
  intros Hi. unfold Middleware.errorHandler.
  destruct e; simpl; rewrite Hi; reflexivity.
Qed.

Lemma errorHandler_by_kind_witness :
  Middleware.status
    (Middleware.errorHandler true
       (js_error foreign_key_violation "insert or update violates foreign key constraint"))
  = status (errorHandler foreign_key_violation).
Proof.
  apply (errorHandler_by_kind true foreign_key_violation). reflexivity.
Defined.

Section AuthProperties.
Variable jwt_verify : string → option (option uuid).

Lemma authenticate_token (fault : option string) (active : gset uuid)
    (authorization cookie : option string) (token : string) :
  request_token authorization cookie = Some token →
  token ≠ "" →
  authenticate jwt_verify fault active authorization cookie
  = match jwt_verify token with
    | None => stop 401 "Token has expired. Please refresh your token."
    | Some decoded =>
        match fault with
        | Some message =>
            if includes "expired" message
            then stop 401 "Token has expired. Please refresh your token."
            else stop 401 "Invalid authentication token."
        | None =>
            match decoded with
            | Some userId =>
                if decide (userId ∈ active) then pass userId
                else stop 401 "User not found or account is inactive."
            | None => stop 401 "User not found or account is inactive."
            end
        end
    end.
Proof.
  intros Ht Hne. unfold authenticate, verifyAccessToken. rewrite Ht.
  rewrite decide_False by done.
  destruct (jwt_verify token) as [decoded|]; [|reflexivity].
  destruct fault; reflexivity.
Qed.

(** A token that the library rejects, for whatever reason, is answered
    "Token has expired": [verifyAccessToken] replaces the library's error
    by one whose message contains [expired], so the answer "Invalid
    authentication token." is never given for a bad token. *)
Lemma authenticate_rejected_token (fault : option string) (active : gset uuid)
    (authorization cookie : option string) (token : string) :
  request_token authorization cookie = Some token →
  token ≠ "" →
  jwt_verify token = None →
  authenticate jwt_verify fault active authorization cookie
  = stop 401 "Token has expired. Please refresh your token.".
Proof.
  intros Ht Hne Hv. rewrite (authenticate_token _ _ _ _ token) by done.
  by rewrite Hv.
Qed.

(** With an [Authorization] header that starts with ["Bearer "], the cookie
    is not looked at: the request is answered as it is without a cookie,
    also when the header's token is empty or rejected and the cookie's is
    good. *)
Lemma authenticate_bearer_first (fault : option string) (active : gset uuid)
    (authHeader : string) (cookie : option string) :
  startsWith "Bearer " authHeader = true →
  authenticate jwt_verify fault active (Some authHeader) cookie
  = authenticate jwt_verify fault active (Some authHeader) None.
Proof.
  intros Hb. unfold authenticate, request_token. rewrite Hb.
  destruct (bool_decide (authHeader = "")) eqn:He; [|reflexivity].
  apply bool_decide_eq_true in He. by subst.
Qed.

(** A failure of the query on [users] is answered 401 as a bad token, not
    passed to the error middleware. *)
Lemma authenticate_query_failure (message : string) (active : gset uuid)
    (authorization cookie : option string) :
  ∃ e, authenticate jwt_verify (Some message) active authorization cookie = stop 401 e.
Proof.
  unfold authenticate.
  destruct (request_token authorization cookie) as [token|]; [|by eexists].
  destruct (decide (token = "")); [by eexists|].
  destruct (verifyAccessToken jwt_verify token) as [m|decoded]; simpl.
  - destruct (includes "expired" m); by eexists.
  - destruct (includes "expired" message); by eexists.
Qed.

(** Without a failure of its query, [requireAdmin] lets through exactly the
    users for whom [has_role(user, 'admin')] of the schema holds. *)
Lemma requireAdmin_has_role (user_roles : list (uuid * app_role)) (userId : uuid) :
  requireAdmin None user_roles (Some userId)
  = if has_role user_roles userId admin then pass userId
    else stop 403 "Admin access required.".
Proof.
  unfold requireAdmin, has_role.
  destruct (filter _ user_roles) as [|r rs] eqn:Hf.
  - rewrite bool_decide_eq_false_2; [done|].
    intros [r [Hr Hp]]%Exists_exists.
    assert (r ∈ filter (λ r, r.1 = userId ∧ r.2 = admin) user_roles) as Hin
      by by apply list_elem_of_filter.
    rewrite Hf in Hin. by apply elem_of_nil in Hin.
  - rewrite bool_decide_eq_true_2; [done|].
    apply Exists_exists. exists r.
    assert (r ∈ filter (λ r, r.1 = userId ∧ r.2 = admin) user_roles) as Hin
      by (rewrite Hf; left).
    apply list_elem_of_filter in Hin as [Hp Hin]. by split.
Qed.

(** The routes of [admin.js] are reached only with a token that the library
    accepts, of an active user who has the role [admin], and with both
    queries answered. *)
Lemma admin_gate_pass (fault1 fault2 : option string) (active : gset uuid)
    (user_roles : list (uuid * app_role)) (authorization cookie : option string)
    (userId : uuid) :
  admin_gate jwt_verify fault1 fault2 active user_roles authorization cookie
  = pass userId →
  ∃ token,
    request_token authorization cookie = Some token ∧
    jwt_verify token = Some (Some userId) ∧
    userId ∈ active ∧
    (userId, admin) ∈ user_roles ∧
    fault1 = None ∧ fault2 = None.
Proof.
  unfold admin_gate. intros Hg.
  destruct (request_token authorization cookie) as [token|] eqn:Ht;
    [|by unfold authenticate in Hg; rewrite Ht in Hg].
  destruct (decide (token = "")) as [->|Hne];
    [by unfold authenticate in Hg; rewrite Ht in Hg|].
  rewrite (authenticate_token _ _ _ _ token) in Hg by done.
  destruct (jwt_verify token) as [[u|]|] eqn:Hv; try done.
  - destruct fault1 as [m|]; [by destruct (includes "expired" m)|].
    destruct (decide (u ∈ active)); [|done].
    destruct fault2; [done|].
    simpl in Hg.
    destruct (filter _ user_roles) as [|r rs] eqn:Hf; [done|].
    injection Hg as ->.
    assert (r ∈ filter (λ r, r.1 = userId ∧ r.2 = admin) user_roles) as Hin
      by (rewrite Hf; left).
    apply list_elem_of_filter in Hin as [[Hu Hr] Hin].
    destruct r as [u r]; simpl in *; subst. by exists token.
  - destruct fault1 as [m|]; [by destruct (includes "expired" m)|done].
Qed.
End AuthProperties.

Lemma authenticate_rejected_token_witness :
  authenticate (verify_only "good" 7%N) None {[7%N]} (Some "Bearer forged") None
  = stop 401 "Token has expired. Please refresh your token.".
Proof.
  apply (authenticate_rejected_token (verify_only "good" 7%N) None {[7%N]}
           (Some "Bearer forged") None "forged");
    [reflexivity|done|reflexivity].
Defined.

Lemma authenticate_bearer_first_witness :
  authenticate (verify_only "good" 7%N) None {[7%N]} (Some "Bearer ") (Some "good")
  = authenticate (verify_only "good" 7%N) None {[7%N]} (Some "Bearer ") None.
Proof.
  apply (authenticate_bearer_first (verify_only "good" 7%N) None {[7%N]} "Bearer "
           (Some "good")).
  reflexivity.
Defined.

Lemma admin_gate_pass_witness :
  ∃ token,
    request_token (Some "Bearer good") None = Some token ∧
    verify_only "good" 7%N token = Some (Some 7%N) ∧
    7%N ∈ ({[7%N]} : gset uuid) ∧
    (7%N, admin) ∈ [(7%N, admin)] ∧
    (None : option string) = None ∧ (None : option string) = None.
Proof.
  apply (admin_gate_pass (verify_only "good" 7%N) None None {[7%N]} [(7%N, admin)]
           (Some "Bearer good") None 7%N).
  vm_compute. reflexivity.
Defined.
